(** * simpy: Alexander polynomials of (1,1)-knots in lens spaces

    A shallow embedding of [simpy.py] and the properties of its
    Laurent-polynomial arithmetic, relator generators, abelianizer,
    Fox-derivative recursion and the two knot classes.

    Modelling conventions.
    - A Python [dict] from exponents to coefficients is a [gmap Z Z]; dict
      equality [==] ignores insertion order, and so does every function of
      the module except the loop of [simplify_laurent], whose key order is
      an explicit argument.  Python integers are [Z].
    - A call either returns, raises, or recurses without end
      ([result]).  Unbounded recursion of [divide_laurent] is cut by a
      fuel argument; the interpreter's recursion limit is not modelled.
    - [int(x / y)] goes through a double.  The model gives its value where
      both operands are exactly representable (magnitude at most 2^53), in
      which range the correctly rounded quotient truncates to [x ÷ y], and
      answers [Unmodelled] outside of it.
    - Functions that work in place ([simplify_laurent], [divide_laurent])
      return the value of the call together with the final content of the
      dict object they mutate. *)

From stdpp Require Import gmap strings list fin_maps pretty sorting.
From Stdlib Require Import ZArith Lia Ascii.

Open Scope Z_scope.

(** ** Outcomes of a call *)

Inductive exn : Set :=
  | ValueError | KeyError | RuntimeError | AttributeError | ZeroDivisionError.

Inductive result (A : Type) : Type :=
  | Ok (a : A)
  | Raise (e : exn)
  | OutOfFuel
  | Unmodelled.
Arguments Ok {A} a.
Arguments Raise {A} e.
Arguments OutOfFuel {A}.
Arguments Unmodelled {A}.

Definition result_bind {A B} (f : A → result B) (r : result A) : result B :=
  match r with
  | Ok a => f a
  | Raise e => Raise e
  | OutOfFuel => OutOfFuel
  | Unmodelled => Unmodelled
  end.

#[global] Instance result_mbind : MBind result := @result_bind.
#[global] Instance result_mret : MRet result := @Ok.
#[global] Instance result_fmap : FMap result :=
  λ A B f, result_bind (λ a, Ok (f a)).

(** [on_return r s k]: continue with [k] when [r] returned; otherwise the
    failure propagates and the mutable object is left with content [s]. *)
Definition on_return {A B S} (r : result A) (s : S) (k : A → result B * S)
  : result B * S :=
  match r with
  | Ok a => k a
  | Raise e => (Raise e, s)
  | OutOfFuel => (OutOfFuel, s)
  | Unmodelled => (Unmodelled, s)
  end.

(** ** Python built-ins used by the module *)

Module Py.

(** The keys of a dict, in the order the model enumerates them. *)
Definition keys (d : gmap Z Z) : list Z := (map_to_list d).*1.

(** [max(d)] and [min(d)] over the keys of a dict; [ValueError] on an
    empty one. *)
Definition max (d : gmap Z Z) : result Z :=
  match keys d with
  | [] => Raise ValueError
  | k :: ks => Ok (foldl Z.max k ks)
  end.

Definition min (d : gmap Z Z) : result Z :=
  match keys d with
  | [] => Raise ValueError
  | k :: ks => Ok (foldl Z.min k ks)
  end.

(** [d[k]] on a plain dict. *)
Definition getitem {K} `{Countable K} (d : gmap K Z) (k : K) : result Z :=
  match d !! k with
  | Some v => Ok v
  | None => Raise KeyError
  end.

(** [d[k] += v] on a [defaultdict(int)]. *)
Definition add_item (k v : Z) (d : gmap Z Z) : gmap Z Z :=
  <[k := default 0 (d !! k) + v]> d.

(** [range(n)] *)
Definition range (n : Z) : list Z := seqZ 0 n.

(** The integers a double holds exactly. *)
Definition float_exact (x : Z) : Prop := Z.abs x ≤ 2 ^ 53.

(** [int(x / y)] for Python integers [x], [y]. *)
Definition int_truediv (x y : Z) : result Z :=
  if decide (y = 0) then Raise ZeroDivisionError
  else if decide (float_exact x ∧ float_exact y) then Ok (x ÷ y)
  else Unmodelled.

(** [{key: d[key] for key in d.keys() if d[key] != 0}] *)
Definition drop_zeros (d : gmap Z Z) : gmap Z Z :=
  filter (λ kv, kv.2 ≠ 0) d.

End Py.

(** ** Laurent polynomial arithmetic *)

Definition add_laurent (poly1 poly2 : gmap Z Z) : gmap Z Z :=
  let poly := map_fold Py.add_item ∅ poly1 in
  let poly := map_fold Py.add_item poly poly2 in
  Py.drop_zeros poly.

Definition multiply_laurent (poly1 poly2 : gmap Z Z) : gmap Z Z :=
  let poly :=
    map_fold (λ power1 c1 acc,
      map_fold (λ power2 c2 acc', Py.add_item (power1 + power2) (c1 * c2) acc')
               acc poly2)
      ∅ poly1 in
  Py.drop_zeros poly.

(** The loop [for k in poly.keys(): if poly[k] == 0: poly.pop(k)].
    [used] is the size the key view recorded when the loop started; the view
    compares it with the current size before it hands out the next key, also
    before it reports exhaustion. *)
Fixpoint simplify_loop (used : nat) (order : list Z) (poly : gmap Z Z)
  : result unit * gmap Z Z :=
  if negb (size poly =? used)%nat then (Raise RuntimeError, poly)
  else
    match order with
    | [] => (Ok (), poly)
    | k :: order' =>
        match poly !! k with
        | None => (Raise KeyError, poly)
        | Some c =>
            if c =? 0 then simplify_loop used order' (delete k poly)
            else simplify_loop used order' poly
        end
    end.

(** [simplify_laurent order poly]: [order] lists the keys of [poly] in the
    order the dict iterates them.  The first component is the value of the
    call ([poly] itself, the same object), the second the content of the
    argument object afterwards. *)
Definition simplify_laurent (order : list Z) (poly : gmap Z Z)
  : result (gmap Z Z) * gmap Z Z :=
  let '(r, poly') := simplify_loop (size poly) order poly in
  (r ≫= λ _, Ok poly', poly').

Definition symmetrize_laurent (poly : gmap Z Z) : result (gmap Z Z) :=
  hi ← Py.max poly;
  lo ← Py.min poly;
  let k := (hi + lo) `div` 2 in
  Ok (multiply_laurent {[ - k := 1 ]} poly).

Definition positive_laurent (poly : gmap Z Z) : result (gmap Z Z) :=
  k ← Py.min poly;
  Ok (multiply_laurent {[ - k := 1 ]} poly).

(** [divide_laurent fuel poly1 poly2 quotient]: [quotient] is the content of
    the accumulator object on entry.  The first component is the value of
    the call (the accumulator object), the second the content of the
    accumulator afterwards, also when the call does not return. *)
Fixpoint divide_laurent (fuel : nat) (poly1 poly2 quotient : gmap Z Z)
  : result (gmap Z Z) * gmap Z Z :=
  match fuel with
  | O => (OutOfFuel, quotient)
  | S fuel' =>
      on_return (Py.max poly1) quotient (λ hi1,
      on_return (Py.max poly2) quotient (λ hi2,
        let k := hi1 - hi2 in
        if k =? 0 then
          let quotient := <[0 := 1]> quotient in
          (Ok quotient, quotient)
        else
          on_return (x ← Py.getitem poly1 hi1;
                     y ← Py.getitem poly2 hi2;
                     Py.int_truediv x y) quotient (λ c,
            let quotient := <[k := c]> quotient in
            divide_laurent fuel'
              (add_laurent poly1 (multiply_laurent {[ k := - c ]} poly2))
              poly2 quotient)))
  end.

Definition allones (p : Z) : gmap Z Z :=
  list_to_map ((λ power, (power, 1)) <$> Py.range p).

(** ** Printing

    [str] of a Python integer is its decimal notation, with a leading minus
    sign when it is negative. *)

Definition str (n : Z) : string := pretty n.

(** [sorted(d.keys())] *)
Definition sorted_keys (d : gmap Z Z) : list Z := merge_sort Z.le (Py.keys d).

(** [s[:-3]]: all but the last three characters, nothing when there are
    fewer. *)
Definition drop_last3 (s : string) : string :=
  String.substring 0 (String.length s - 3) s.

Definition laurent_expression (poly : gmap Z Z) : result string :=
  expression ←
    foldl (λ acc key,
             expression ← acc;
             c ← Py.getitem poly key;
             Ok (expression +:+ (str c +:+ "t^(" +:+ str key +:+ ") + ")))
          (Ok "") (sorted_keys poly);
  Ok (drop_last3 expression).

(** ** Relators and their abelianization *)

Definition simple_relator (p q k : Z) : string :=
  foldl (λ relator i,
           let j := (i * q) `mod` p in
           if decide (j < k) then relator +:+ "ab" else relator +:+ "a")
        "" (Py.range p).

Definition hedden_relator (p q : Z) : string :=
  foldl (λ relator i,
           if decide ((i * q) `mod` p + q >= p) then relator +:+ "ba"
           else relator +:+ "a")
        "abAba" (Py.range (p - 1)).

Definition abelianization (relator : string) : gmap string Z :=
  let '(j, k) :=
    foldl (λ '(j, k) char,
             if Ascii.eqb char "a"%char then (j + 1, k) else (j, k + 1))
          (0, 0) (String.list_ascii_of_string relator) in
  {[ "a" := k; "b" := - j; "A" := - k; "B" := j ]}.

(** ** The two knot classes *)

(** A one-character Python string. *)
Definition char_str (c : ascii) : string := String c EmptyString.

(** The recursive case shared by both [free_differential_a] methods:
    [add_laurent(head, multiply_laurent({abelianization[c]: 1}, tail))];
    the results are [None] when the method fell through without a value. *)
Definition fox_step (ab : gmap string Z) (c : ascii)
    (head tail : result (option (gmap Z Z))) : result (option (gmap Z Z)) :=
  h ← head;
  e ← Py.getitem ab (char_str c);
  t ← tail;
  match h, t with
  | Some h, Some t => Ok (Some (add_laurent h (multiply_laurent {[ e := 1 ]} t)))
  | _, _ => Raise AttributeError
  end.

Module hedden_knot.

Definition base (ab : gmap string Z) (c : ascii) : result (option (gmap Z Z)) :=
  if String.eqb (char_str c) "a" then Ok (Some {[ 0 := 1 ]})
  else if String.eqb (char_str c) "b" then Ok (Some {[ 0 := 0 ]})
  else (e ← Py.getitem ab "a"; Ok (Some {[ e := -1 ]})).

Fixpoint free_differential_a (ab : gmap string Z) (relator : string)
  : result (option (gmap Z Z)) :=
  match relator with
  | EmptyString => Ok None
  | String c EmptyString => base ab c
  | String c rest =>
      fox_step ab c (base ab c) (free_differential_a ab rest)
  end.

Local Abbreviation abelianize := abelianization.

Record t := mk {
  p : Z; q : Z; k : Z;
  relator : string;
  abelianization : gmap string Z;
  alexander_polynomial : gmap Z Z
}.

Definition init (p q : Z) : result t :=
  let relator := hedden_relator p q in
  let ab := abelianize relator in
  fd ← free_differential_a ab relator;
  match fd with
  | None => Raise AttributeError
  | Some fd =>
      s ← (simplify_laurent (Py.keys fd) fd).1;
      pos ← positive_laurent s;
      alex ← symmetrize_laurent pos;
      Ok (mk p q (q + 1) relator ab alex)
  end.

End hedden_knot.

Module simple_knot.

Definition base (c : ascii) : result (option (gmap Z Z)) :=
  if String.eqb (char_str c) "a" then Ok (Some {[ 0 := 1 ]})
  else Ok (Some {[ 0 := 0 ]}).

Fixpoint free_differential_a (ab : gmap string Z) (relator : string)
  : result (option (gmap Z Z)) :=
  match relator with
  | EmptyString => Ok None
  | String c EmptyString => base c
  | String c rest =>
      fox_step ab c (base c) (free_differential_a ab rest)
  end.

Local Abbreviation abelianize := abelianization.

Record t := mk {
  p : Z; q : Z; k : Z;
  relator : string;
  abelianization : gmap string Z;
  alexander_polynomial : gmap Z Z
}.

(** The accumulator passed to [divide_laurent] is the fresh literal
    [{0: 0}]. *)
Definition init (fuel : nat) (p q k : Z) : result t :=
  let relator := simple_relator p q k in
  let ab := abelianize relator in
  fd ← free_differential_a ab relator;
  match fd with
  | None => Raise AttributeError
  | Some fd =>
      s ← (simplify_laurent (Py.keys fd) fd).1;
      pos ← positive_laurent s;
      quo ← (divide_laurent fuel pos (allones p) {[ 0 := 0 ]}).1;
      alex ← symmetrize_laurent quo;
      Ok (mk p q k relator ab alex)
  end.

End simple_knot.

(** The two-argument call [divide_laurent(poly1, poly2)]: the accumulator is
    the default-argument object, a [defaultdict(int)] created once, when the
    function is defined, and handed to every such call.  [shared] is its
    content before the call; the second component of the result is its
    content afterwards. *)
Definition divide_laurent_default (fuel : nat) (poly1 poly2 shared : gmap Z Z)
  : result (gmap Z Z) * gmap Z Z :=
  divide_laurent fuel poly1 poly2 shared.

(** * Vocabulary of the specification *)

(** The coefficient of [t^n]: the entry at [n], or 0 when there is none. *)
Definition coef (poly : gmap Z Z) (n : Z) : Z := default 0 (poly !! n).

(** A simplified polynomial has no entry with coefficient 0. *)
Definition zero_free (poly : gmap Z Z) : Prop := ∀ n, poly !! n ≠ Some 0.

Definition is_max_key (d : gmap Z Z) (m : Z) : Prop :=
  is_Some (d !! m) ∧ ∀ j, is_Some (d !! j) → j ≤ m.

Definition is_min_key (d : gmap Z Z) (m : Z) : Prop :=
  is_Some (d !! m) ∧ ∀ j, is_Some (d !! j) → m ≤ j.

(** The sum of all coefficient values of a polynomial. *)
Definition coeff_sum (poly : gmap Z Z) : Z := map_fold (λ _ c acc, c + acc) 0 poly.

Abbreviation chars := String.list_ascii_of_string.

(** Number of letters "a" and of all other letters. *)
Definition count_a (l : list ascii) : Z :=
  Z.of_nat (length (filter (λ c, c = "a"%char) l)).

Definition count_other (l : list ascii) : Z :=
  Z.of_nat (length (filter (λ c, c ≠ "a"%char) l)).

(** [simple_relator] appends "ab" or "a" per index. *)
Definition simple_piece (p q k i : Z) : string :=
  if decide ((i * q) `mod` p < k) then "ab" else "a".

(** What one letter contributes to the coefficient sum of the derivative. *)
Definition hedden_weight (c : ascii) : Z :=
  if decide (c = "a"%char) then 1 else if decide (c = "b"%char) then 0 else -1.

Definition simple_weight (c : ascii) : Z :=
  if decide (c = "a"%char) then 1 else 0.

Definition weight_sum (weight : ascii → Z) (l : list ascii) : Z :=
  foldr (λ c acc, weight c + acc) 0 l.

Definition hedden_piece (p q i : Z) : string :=
  if decide ((i * q) `mod` p + q >= p) then "ba" else "a".

(** The support is centred on 0 as far as integer exponents allow. *)
Definition centred (poly : gmap Z Z) : Prop :=
  ∃ lo hi, is_min_key poly lo ∧ is_max_key poly hi ∧ 0 ≤ lo + hi ≤ 1.

(** One round of the recursion. *)
Definition divide_step (poly1 poly2 : gmap Z Z) : result (Z * Z) :=
  hi1 ← Py.max poly1;
  hi2 ← Py.max poly2;
  if hi1 - hi2 =? 0 then Ok (0, 1)
  else
    c ← (x ← Py.getitem poly1 hi1; y ← Py.getitem poly2 hi2; Py.int_truediv x y);
    Ok (hi1 - hi2, c).

(** [conv poly f n] is the sum of [c * f (n - i)] over the entries [i: c]
    of [poly]. *)
Definition conv (poly : gmap Z Z) (f : Z → Z) (n : Z) : Z :=
  map_fold (λ i c acc, c * f (n - i) + acc) 0 poly.

Definition zsum (f : Z → Z) (l : list Z) : Z := foldr (λ i acc, f i + acc) 0 l.

(** The exponents [E] after the shift that moves the least one, [m], to 0. *)
Definition shifted (E : list Z) (m n : Z) : Prop := n + m ∈ E.

#[global] Instance shifted_dec (E : list Z) (m n : Z) : Decision (shifted E m n) :=
  decide (n + m ∈ E).

(** [above p E m n]: some shifted exponent in the residue class of [n]
    modulo [p] is greater than [n], and [n] is not negative. *)
Definition above (p : Z) (E : list Z) (m n : Z) : Z :=
  if decide (0 ≤ n ∧ Exists (λ e, n < e - m ∧ (e - m) `mod` p = n `mod` p) E)
  then 1 else 0.

(** Coefficient of [t^n] in the quotient of the shifted exponents by
    [1 + t + ... + t^(p-1)]. *)
Definition quotient_coef (p : Z) (E : list Z) (m n : Z) : Z :=
  (if decide (n = 0) then 1 else 0) + above p E m (n - 1) - above p E m n.

(** The image of a letter, 0 where the map has none. *)
Definition image (ab : gmap string Z) (c : ascii) : Z := default 0 (ab !! char_str c).

(** The exponents contributed by the letters "a" of a word read after a
    prefix of image [start]. *)
Fixpoint a_exponents (ab : gmap string Z) (start : Z) (l : list ascii) : list Z :=
  match l with
  | [] => []
  | c :: l' =>
      (if decide (c = "a"%char) then [start] else [])
      ++ a_exponents ab (start + image ab c) l'
  end.

Definition occurrences (n : Z) (l : list Z) : Z :=
  Z.of_nat (length (filter (λ e, e = n) l)).

(** The same exponents, block by block of the simple relator: each block
    starts with "a", of image [α], and has a "b", of image [- p], when the
    residue of its index is below [k]. *)
Fixpoint block_exponents (p q k α : Z) (start : Z) (l : list Z) : list Z :=
  match l with
  | [] => []
  | i :: l' =>
      start :: block_exponents p q k α
                 (start + α + (if decide ((i * q) `mod` p < k) then - p else 0)) l'
  end.

(** The quotient of the shifted exponents by [1 + t + ... + t^(p-1)], with
    its coefficients tabulated up to [bound]. *)
Definition residue_quotient (p : Z) (E : list Z) (m bound : Z) : gmap Z Z :=
  Py.drop_zeros (list_to_map ((λ n, (n, quotient_coef p E m n)) <$> seqZ 0 (bound + 1))).

(** Number of occurrences of one letter. *)
Definition count_letter (c : ascii) (l : list ascii) : Z :=
  Z.of_nat (length (filter (λ x, x = c) l)).

(** The image of a word: the sum of the images of its letters. *)
Definition word_image (ab : gmap string Z) (l : list ascii) : Z :=
  foldr (λ c acc, image ab c + acc) 0 l.

(** One term of the printed expression. *)
Definition term (c key : Z) : string := str c +:+ "t^(" +:+ str key +:+ ")".

(** * Properties of the model *)

(** ** Coefficients and simplified polynomials *)

Section coefficients.
Implicit Types (poly acc : gmap Z Z) (n k c : Z).

Lemma coef_empty n : coef ∅ n = 0.
Proof. unfold coef. by rewrite lookup_empty. Qed.

Lemma coef_insert poly k c n :
  coef (<[k := c]> poly) n = if decide (k = n) then c else coef poly n.
Proof. unfold coef. rewrite lookup_insert. by case_decide. Qed.

Lemma coef_singleton k c n :
  coef {[ k := c ]} n = if decide (k = n) then c else 0.
Proof. unfold coef. rewrite lookup_singleton. by case_decide. Qed.

Lemma coef_delete poly k n :
  coef (delete k poly) n = if decide (k = n) then 0 else coef poly n.
Proof. unfold coef. rewrite lookup_delete. by case_decide. Qed.

Lemma coef_nonzero_lookup poly n : coef poly n ≠ 0 → poly !! n = Some (coef poly n).
Proof. unfold coef. destruct (poly !! n); simpl; congruence. Qed.

Lemma zero_free_lookup poly n :
  zero_free poly → poly !! n = if decide (coef poly n = 0) then None else Some (coef poly n).
Proof.
  intros Hz. specialize (Hz n). unfold coef.
  destruct (poly !! n) as [c|]; simpl; try case_decide; congruence.
Qed.

(** Simplified polynomials are determined by their coefficients. *)
Lemma zero_free_ext poly1 poly2 :
  zero_free poly1 → zero_free poly2 →
  (∀ n, coef poly1 n = coef poly2 n) → poly1 = poly2.
Proof.
  intros H1 H2 Hc. apply map_eq. intros n.
  rewrite (zero_free_lookup poly1), (zero_free_lookup poly2) by done.
  by rewrite Hc.
Qed.

Lemma zero_free_empty : zero_free ∅.
Proof. intros n. by rewrite lookup_empty. Qed.

Lemma zero_free_delete poly k : zero_free poly → zero_free (delete k poly).
Proof.
  intros Hz n. rewrite lookup_delete. case_decide; [done | apply Hz].
Qed.

Lemma zero_free_insert poly k c : c ≠ 0 → zero_free poly → zero_free (<[k := c]> poly).
Proof.
  intros Hc Hz n. rewrite lookup_insert. case_decide; [congruence | apply Hz].
Qed.

Lemma lookup_drop_zeros poly n :
  Py.drop_zeros poly !! n =
    match poly !! n with
    | Some c => if decide (c = 0) then None else Some c
    | None => None
    end.
Proof.
  unfold Py.drop_zeros. destruct (poly !! n) as [c|] eqn:E.
  - case_decide.
    + apply map_lookup_filter_None. right. intros c' E'. simpl. congruence.
    + apply map_lookup_filter_Some. by split.
  - apply map_lookup_filter_None. by left.
Qed.

Lemma coef_drop_zeros poly n : coef (Py.drop_zeros poly) n = coef poly n.
Proof.
  unfold coef. rewrite lookup_drop_zeros.
  destruct (poly !! n) as [c|]; [|done]. by case_decide.
Qed.

Lemma drop_zeros_zero_free poly : zero_free (Py.drop_zeros poly).
Proof.
  intros n. rewrite lookup_drop_zeros.
  destruct (poly !! n) as [c|]; [|done]. case_decide; congruence.
Qed.

Lemma drop_zeros_id poly : zero_free poly → Py.drop_zeros poly = poly.
Proof.
  intros Hz. apply map_eq. intros n. rewrite lookup_drop_zeros.
  specialize (Hz n). destruct (poly !! n) as [c|]; [|done].
  case_decide; congruence.
Qed.

(** The accumulation loop [for power in poly: acc[power] += poly[power]]. *)
Lemma lookup_fold_add_item acc poly n :
  map_fold Py.add_item acc poly !! n =
    match poly !! n with
    | Some c => Some (coef acc n + c)
    | None => acc !! n
    end.
Proof.
  revert n.
  apply (map_fold_weak_ind (λ r m, ∀ n, r !! n =
    match m !! n with Some c => Some (coef acc n + c) | None => acc !! n end)).
  - intros n. by rewrite lookup_empty.
  - intros i x m r Hi IH n. unfold Py.add_item.
    rewrite !lookup_insert. case_decide as E.
    + subst. rewrite IH, Hi. done.
    + apply IH.
Qed.

Lemma lookup_add_laurent poly1 poly2 n :
  add_laurent poly1 poly2 !! n =
    Py.drop_zeros (union_with (λ c1 c2, Some (c1 + c2)) poly1 poly2) !! n.
Proof.
  unfold add_laurent. rewrite !lookup_drop_zeros.
  rewrite !lookup_fold_add_item, lookup_union_with. unfold coef.
  rewrite !lookup_fold_add_item, !lookup_empty.
  destruct (poly1 !! n), (poly2 !! n); simpl; try done.
Qed.

Lemma coef_add_laurent poly1 poly2 n :
  coef (add_laurent poly1 poly2) n = coef poly1 n + coef poly2 n.
Proof.
  unfold coef at 1. rewrite lookup_add_laurent. fold (coef (Py.drop_zeros
    (union_with (λ c1 c2, Some (c1 + c2)) poly1 poly2)) n).
  rewrite coef_drop_zeros. unfold coef. rewrite lookup_union_with.
  destruct (poly1 !! n), (poly2 !! n); simpl; lia.
Qed.

Lemma add_laurent_zero_free poly1 poly2 : zero_free (add_laurent poly1 poly2).
Proof. apply drop_zeros_zero_free. Qed.

Lemma multiply_laurent_zero_free poly1 poly2 : zero_free (multiply_laurent poly1 poly2).
Proof. apply drop_zeros_zero_free. Qed.

(** The inner loop of [multiply_laurent] for one term [c t^k] of the
    left factor. *)
Lemma coef_fold_shift k c acc poly n :
  coef (map_fold (λ power2 c2 acc', Py.add_item (k + power2) (c * c2) acc')
                 acc poly) n
  = coef acc n + c * coef poly (n - k).
Proof.
  revert n.
  apply (map_fold_weak_ind (λ r m, ∀ n, coef r n = coef acc n + c * coef m (n - k))).
  - intros n. rewrite coef_empty. lia.
  - intros i x m r Hi IH n. unfold Py.add_item. fold (coef r (k + i)).
    rewrite !coef_insert, !IH. repeat case_decide; try lia.
    + subst. replace (k + i - k) with i by lia.
      unfold coef at 2. rewrite Hi. simpl. lia.
Qed.

Lemma coef_multiply_monomial k c poly n :
  coef (multiply_laurent {[ k := c ]} poly) n = c * coef poly (n - k).
Proof.
  unfold multiply_laurent. rewrite coef_drop_zeros, map_fold_singleton.
  rewrite coef_fold_shift, coef_empty. lia.
Qed.

Lemma lookup_multiply_monomial k c poly n :
  multiply_laurent {[ k := c ]} poly !! n =
    match poly !! (n - k) with
    | Some v => if decide (c * v = 0) then None else Some (c * v)
    | None => None
    end.
Proof.
  rewrite (zero_free_lookup _ n) by apply multiply_laurent_zero_free.
  rewrite coef_multiply_monomial. unfold coef.
  destruct (poly !! (n - k)) as [v|]; simpl; [done|].
  rewrite Z.mul_0_r. by case_decide.
Qed.

(** Multiplying a simplified polynomial by [t^k] moves every entry. *)
Lemma lookup_shift k poly n :
  zero_free poly → multiply_laurent {[ k := 1 ]} poly !! n = poly !! (n - k).
Proof.
  intros Hz. rewrite lookup_multiply_monomial. specialize (Hz (n - k)).
  destruct (poly !! (n - k)) as [v|]; [|done].
  rewrite Z.mul_1_l. case_decide; congruence.
Qed.

End coefficients.

(** ** Largest and smallest exponent *)

Section extrema.
Implicit Types (d poly : gmap Z Z) (k m n : Z).

Lemma elem_of_keys d k : k ∈ Py.keys d ↔ is_Some (d !! k).
Proof.
  unfold Py.keys. rewrite list_elem_of_fmap. split.
  - intros [[k' v] [-> Hin]]. apply elem_of_map_to_list in Hin. by exists v.
  - intros [v Hv]. exists (k, v). split; [done|]. by apply elem_of_map_to_list.
Qed.

Lemma keys_nil d : Py.keys d = [] ↔ d = ∅.
Proof.
  unfold Py.keys. split.
  - intros H. apply fmap_nil_inv in H. by apply map_to_list_empty_iff.
  - intros ->. by rewrite map_to_list_empty.
Qed.

Lemma foldl_max_spec k ks :
  foldl Z.max k ks ∈ k :: ks ∧ ∀ j, j ∈ k :: ks → j ≤ foldl Z.max k ks.
Proof.
  revert k. induction ks as [|x ks IH]; intros k; simpl.
  - split; [by left|]. intros j Hj. apply list_elem_of_singleton in Hj. lia.
  - destruct (IH (Z.max k x)) as [Hin Hle]. split.
    + apply elem_of_cons in Hin as [Hin|Hin].
      * rewrite Hin. destruct (Z.max_spec k x) as [[_ ->]|[_ ->]].
        -- right. by left.
        -- by left.
      * right. by right.
    + intros j Hj.
      assert (Z.max k x ≤ foldl Z.max (Z.max k x) ks) by (apply Hle; by left).
      rewrite !elem_of_cons in Hj. destruct Hj as [->|[->|Hj]]; [lia|lia|].
      apply Hle. by right.
Qed.

Lemma foldl_min_spec k ks :
  foldl Z.min k ks ∈ k :: ks ∧ ∀ j, j ∈ k :: ks → foldl Z.min k ks ≤ j.
Proof.
  revert k. induction ks as [|x ks IH]; intros k; simpl.
  - split; [by left|]. intros j Hj. apply list_elem_of_singleton in Hj. lia.
  - destruct (IH (Z.min k x)) as [Hin Hle]. split.
    + apply elem_of_cons in Hin as [Hin|Hin].
      * rewrite Hin. destruct (Z.min_spec k x) as [[_ ->]|[_ ->]].
        -- by left.
        -- right. by left.
      * right. by right.
    + intros j Hj.
      assert (foldl Z.min (Z.min k x) ks ≤ Z.min k x) by (apply Hle; by left).
      rewrite !elem_of_cons in Hj. destruct Hj as [->|[->|Hj]]; [lia|lia|].
      apply Hle. by right.
Qed.

Lemma is_max_key_unique d m1 m2 : is_max_key d m1 → is_max_key d m2 → m1 = m2.
Proof. intros [H1 L1] [H2 L2]. specialize (L1 _ H2). specialize (L2 _ H1). lia. Qed.

Lemma is_min_key_unique d m1 m2 : is_min_key d m1 → is_min_key d m2 → m1 = m2.
Proof. intros [H1 L1] [H2 L2]. specialize (L1 _ H2). specialize (L2 _ H1). lia. Qed.

Lemma max_empty : Py.max ∅ = Raise ValueError.
Proof. unfold Py.max. by rewrite (proj2 (keys_nil ∅)). Qed.

Lemma min_empty : Py.min ∅ = Raise ValueError.
Proof. unfold Py.min. by rewrite (proj2 (keys_nil ∅)). Qed.

Lemma max_nonempty d : d ≠ ∅ → ∃ m, Py.max d = Ok m ∧ is_max_key d m.
Proof.
  intros Hne. unfold Py.max.
  destruct (Py.keys d) as [|k ks] eqn:E; [by apply keys_nil in E|].
  eexists. split; [done|].
  destruct (foldl_max_spec k ks) as [Hin Hle]. rewrite <-E in Hin, Hle. split.
  - by apply elem_of_keys.
  - intros j Hj. by apply Hle, elem_of_keys.
Qed.

Lemma min_nonempty d : d ≠ ∅ → ∃ m, Py.min d = Ok m ∧ is_min_key d m.
Proof.
  intros Hne. unfold Py.min.
  destruct (Py.keys d) as [|k ks] eqn:E; [by apply keys_nil in E|].
  eexists. split; [done|].
  destruct (foldl_min_spec k ks) as [Hin Hle]. rewrite <-E in Hin, Hle. split.
  - by apply elem_of_keys.
  - intros j Hj. by apply Hle, elem_of_keys.
Qed.

Lemma is_max_key_nonempty d m : is_max_key d m → d ≠ ∅.
Proof. intros [[v Hv] _] ->. by rewrite lookup_empty in Hv. Qed.

Lemma is_min_key_nonempty d m : is_min_key d m → d ≠ ∅.
Proof. intros [[v Hv] _] ->. by rewrite lookup_empty in Hv. Qed.

Lemma max_Ok d m : Py.max d = Ok m ↔ is_max_key d m.
Proof.
  split.
  - intros H. destruct (decide (d = ∅)) as [->|Hne].
    { by rewrite max_empty in H. }
    destruct (max_nonempty d Hne) as (m' & E & Hm). congruence.
  - intros Hm. destruct (max_nonempty d (is_max_key_nonempty _ _ Hm)) as (m' & E & Hm').
    by rewrite (is_max_key_unique _ _ _ Hm Hm').
Qed.

Lemma min_Ok d m : Py.min d = Ok m ↔ is_min_key d m.
Proof.
  split.
  - intros H. destruct (decide (d = ∅)) as [->|Hne].
    { by rewrite min_empty in H. }
    destruct (min_nonempty d Hne) as (m' & E & Hm). congruence.
  - intros Hm. destruct (min_nonempty d (is_min_key_nonempty _ _ Hm)) as (m' & E & Hm').
    by rewrite (is_min_key_unique _ _ _ Hm Hm').
Qed.

(** Shifting a simplified polynomial shifts its extreme exponents. *)
Lemma is_max_key_shift k poly m :
  zero_free poly → is_max_key poly m →
  is_max_key (multiply_laurent {[ k := 1 ]} poly) (m + k).
Proof.
  intros Hz [Hm Hle]. split.
  - rewrite lookup_shift by done. by replace (m + k - k) with m by lia.
  - intros j. rewrite lookup_shift by done. intros Hj%Hle. lia.
Qed.

Lemma is_min_key_shift k poly m :
  zero_free poly → is_min_key poly m →
  is_min_key (multiply_laurent {[ k := 1 ]} poly) (m + k).
Proof.
  intros Hz [Hm Hle]. split.
  - rewrite lookup_shift by done. by replace (m + k - k) with m by lia.
  - intros j. rewrite lookup_shift by done. intros Hj%Hle. lia.
Qed.

End extrema.

(** ** The value at [t = 1] *)

Section sums.
Implicit Types (poly acc : gmap Z Z) (n k c : Z).

Lemma coeff_sum_empty : coeff_sum ∅ = 0.
Proof. apply map_fold_empty. Qed.

Lemma coeff_sum_insert_fresh poly k c :
  poly !! k = None → coeff_sum (<[k := c]> poly) = c + coeff_sum poly.
Proof.
  intros Hk. unfold coeff_sum. rewrite map_fold_insert_L; [done| |done].
  intros. lia.
Qed.

Lemma coeff_sum_delete poly k : coeff_sum poly = coef poly k + coeff_sum (delete k poly).
Proof.
  unfold coef. destruct (poly !! k) as [c|] eqn:E; simpl.
  - rewrite <-(insert_delete_id poly k c) at 1 by done.
    apply coeff_sum_insert_fresh, lookup_delete_eq.
  - by rewrite delete_id.
Qed.

Lemma coeff_sum_insert poly k c :
  coeff_sum (<[k := c]> poly) = c + coeff_sum poly - coef poly k.
Proof.
  rewrite <-insert_delete_eq, coeff_sum_insert_fresh by apply lookup_delete_eq.
  rewrite (coeff_sum_delete poly k). lia.
Qed.

Lemma coeff_sum_singleton k c : coeff_sum {[ k := c ]} = c.
Proof.
  rewrite <-insert_empty, coeff_sum_insert_fresh, coeff_sum_empty by apply lookup_empty.
  lia.
Qed.

Lemma coeff_sum_drop_zeros poly : coeff_sum (Py.drop_zeros poly) = coeff_sum poly.
Proof.
  induction poly as [|k c poly Hk IH] using map_ind.
  - unfold Py.drop_zeros. by rewrite map_filter_empty.
  - unfold Py.drop_zeros in *. destruct (decide (c = 0)) as [->|Hc].
    + rewrite map_filter_insert_False by (simpl; lia).
      rewrite delete_id by done.
      rewrite coeff_sum_insert_fresh by done. lia.
    + rewrite map_filter_insert_True by done.
      rewrite !coeff_sum_insert_fresh; [lia|done|].
      apply map_lookup_filter_None. by left.
Qed.

Lemma coeff_sum_fold_add_item acc poly :
  coeff_sum (map_fold Py.add_item acc poly) = coeff_sum acc + coeff_sum poly.
Proof.
  apply (map_fold_weak_ind (λ r m, coeff_sum r = coeff_sum acc + coeff_sum m)).
  - rewrite coeff_sum_empty. lia.
  - intros i x m r Hi IH. unfold Py.add_item. fold (coef r i).
    rewrite coeff_sum_insert, coeff_sum_insert_fresh by done. lia.
Qed.

Lemma coeff_sum_add_laurent poly1 poly2 :
  coeff_sum (add_laurent poly1 poly2) = coeff_sum poly1 + coeff_sum poly2.
Proof.
  unfold add_laurent.
  rewrite coeff_sum_drop_zeros, !coeff_sum_fold_add_item, coeff_sum_empty. lia.
Qed.

Lemma coeff_sum_fold_shift k c acc poly :
  coeff_sum (map_fold (λ power2 c2 acc', Py.add_item (k + power2) (c * c2) acc')
                      acc poly)
  = coeff_sum acc + c * coeff_sum poly.
Proof.
  apply (map_fold_weak_ind (λ r m, coeff_sum r = coeff_sum acc + c * coeff_sum m)).
  - rewrite coeff_sum_empty. lia.
  - intros i x m r Hi IH. unfold Py.add_item. fold (coef r (k + i)).
    rewrite coeff_sum_insert, coeff_sum_insert_fresh by done. lia.
Qed.

Lemma coeff_sum_multiply_monomial k c poly :
  coeff_sum (multiply_laurent {[ k := c ]} poly) = c * coeff_sum poly.
Proof.
  unfold multiply_laurent.
  rewrite coeff_sum_drop_zeros, map_fold_singleton, coeff_sum_fold_shift, coeff_sum_empty.
  lia.
Qed.

Lemma coeff_sum_nonzero_nonempty poly : coeff_sum poly ≠ 0 → poly ≠ ∅.
Proof. intros H ->. by rewrite coeff_sum_empty in H. Qed.

End sums.

(** ** [simplify_laurent] *)

Section simplify.
Implicit Types (poly : gmap Z Z) (order : list Z).

Lemma simplify_loop_resized used order poly :
  size poly ≠ used → simplify_loop used order poly = (Raise RuntimeError, poly).
Proof.
  intros Hne. apply Nat.eqb_neq in Hne.
  destruct order; simpl; by rewrite Hne.
Qed.

Lemma simplify_loop_spec order poly :
  (∀ k, k ∈ order → is_Some (poly !! k)) →
  simplify_loop (size poly) order poly =
    match list_find (λ k, poly !! k = Some 0) order with
    | Some (_, k) => (Raise RuntimeError, delete k poly)
    | None => (Ok (), poly)
    end.
Proof.
  induction order as [|k order IH]; intros Hin; simpl.
  - by rewrite Nat.eqb_refl.
  - rewrite Nat.eqb_refl. simpl.
    destruct (Hin k) as [c Hc]; [by left|]. rewrite Hc.
    case_decide as Hz.
    + assert (c = 0) as -> by congruence. simpl.
      apply simplify_loop_resized.
      rewrite map_size_delete, Hc. simpl.
      assert (size poly ≠ 0%nat) by (apply map_size_ne_0_lookup; eauto). lia.
    + assert (c ≠ 0) as Hc0 by congruence.
      apply Z.eqb_neq in Hc0. rewrite Hc0.
      rewrite IH by (intros; apply Hin; by right).
      by destruct (list_find _ order) as [[? ?]|].
Qed.

(** On a simplified polynomial the loop removes nothing and the call
    returns its argument. *)
Lemma simplify_laurent_zero_free order poly :
  (∀ k, k ∈ order → is_Some (poly !! k)) → zero_free poly →
  simplify_laurent order poly = (Ok poly, poly).
Proof.
  intros Hin Hz. unfold simplify_laurent. rewrite simplify_loop_spec by done.
  destruct (list_find _ order) as [[i k]|] eqn:E; [|done].
  apply list_find_Some in E as (_ & E & _). by apply Hz in E.
Qed.

Lemma simplify_laurent_keys_zero_free poly :
  zero_free poly → simplify_laurent (Py.keys poly) poly = (Ok poly, poly).
Proof.
  intros. apply simplify_laurent_zero_free; [|done].
  intros k. by rewrite elem_of_keys.
Qed.

End simplify.

(** ** [positive_laurent] and [symmetrize_laurent] *)

Section normalize.
Implicit Types (poly : gmap Z Z) (m lo hi : Z).

Lemma positive_laurent_Ok poly m :
  is_min_key poly m →
  positive_laurent poly = Ok (multiply_laurent {[ - m := 1 ]} poly).
Proof.
  intros Hm. unfold positive_laurent. apply min_Ok in Hm. by rewrite Hm.
Qed.

Lemma symmetrize_laurent_Ok poly lo hi :
  is_min_key poly lo → is_max_key poly hi →
  symmetrize_laurent poly =
    Ok (multiply_laurent {[ - ((hi + lo) `div` 2) := 1 ]} poly).
Proof.
  intros Hlo Hhi. unfold symmetrize_laurent.
  apply min_Ok in Hlo. apply max_Ok in Hhi. by rewrite Hlo, Hhi.
Qed.

(** The extreme keys of a product with a monomial [t^k], when the
    coefficients at the extreme keys of the factor are not 0. *)
Lemma is_min_key_multiply_monomial k poly m :
  is_min_key poly m → coef poly m ≠ 0 →
  is_min_key (multiply_laurent {[ k := 1 ]} poly) (m + k).
Proof.
  intros [Hm Hle] Hc. split.
  - rewrite lookup_multiply_monomial. replace (m + k - k) with m by lia.
    rewrite (coef_nonzero_lookup _ _ Hc). rewrite Z.mul_1_l.
    case_decide; [done|eauto].
  - intros j. rewrite lookup_multiply_monomial.
    destruct (poly !! (j - k)) as [v|] eqn:E; [|by intros [? ?]].
    intros _. assert (m ≤ j - k) by (apply Hle; eauto). lia.
Qed.

Lemma is_max_key_multiply_monomial k poly m :
  is_max_key poly m → coef poly m ≠ 0 →
  is_max_key (multiply_laurent {[ k := 1 ]} poly) (m + k).
Proof.
  intros [Hm Hle] Hc. split.
  - rewrite lookup_multiply_monomial. replace (m + k - k) with m by lia.
    rewrite (coef_nonzero_lookup _ _ Hc). rewrite Z.mul_1_l.
    case_decide; [done|eauto].
  - intros j. rewrite lookup_multiply_monomial.
    destruct (poly !! (j - k)) as [v|] eqn:E; [|by intros [? ?]].
    intros _. assert (j - k ≤ m) by (apply Hle; eauto). lia.
Qed.

Lemma zero_free_coef poly m : zero_free poly → is_Some (poly !! m) → coef poly m ≠ 0.
Proof. intros Hz [v Hv]. unfold coef. rewrite Hv. simpl. intros ->. by apply Hz in Hv. Qed.

End normalize.

(** ** Letters of a relator *)

Section relators.

Lemma chars_app (s1 s2 : string) : chars (s1 +:+ s2) = chars s1 ++ chars s2.
Proof. induction s1 as [|c s1 IH]; simpl; [done|]. by rewrite IH. Qed.

(** A loop that appends one piece per index. *)
Lemma chars_foldl_pieces {A} (step : string → A → string) (piece : A → string) :
  (∀ s i, step s i = s +:+ piece i) →
  ∀ (l : list A) (s : string),
    chars (foldl step s l) = chars s ++ mbind (λ i, chars (piece i)) l.
Proof.
  intros Hstep l. induction l as [|i l IH]; intros s; simpl.
  - by rewrite app_nil_r.
  - by rewrite IH, Hstep, chars_app, <-app_assoc.
Qed.

Lemma count_a_app l1 l2 : count_a (l1 ++ l2) = count_a l1 + count_a l2.
Proof. unfold count_a. rewrite filter_app, length_app. lia. Qed.

Lemma count_other_app l1 l2 : count_other (l1 ++ l2) = count_other l1 + count_other l2.
Proof. unfold count_other. rewrite filter_app, length_app. lia. Qed.

(** The counting loop of [abelianization]. *)
Lemma abelianization_loop (l : list ascii) (j k : Z) :
  foldl (λ '(j, k) char,
           if Ascii.eqb char "a"%char then (j + 1, k) else (j, k + 1))
        (j, k) l
  = (j + count_a l, k + count_other l).
Proof.
  revert j k. induction l as [|c l IH]; intros j k; simpl.
  - unfold count_a, count_other. simpl. f_equal; lia.
  - destruct (Ascii.eqb_spec c "a"%char) as [->|Hc]; rewrite IH.
    + unfold count_a, count_other.
      rewrite filter_cons_True, filter_cons_False by (auto; congruence).
      simpl length. f_equal; lia.
    + unfold count_a, count_other.
      rewrite filter_cons_False, filter_cons_True by done.
      simpl length. f_equal; lia.
Qed.

Lemma abelianization_counts (relator : string) :
  abelianization relator =
    {[ "a" := count_other (chars relator); "b" := - count_a (chars relator);
       "A" := - count_other (chars relator); "B" := count_a (chars relator) ]}.
Proof.
  unfold abelianization. rewrite abelianization_loop. by rewrite !Z.add_0_l.
Qed.

Lemma simple_relator_pieces p q k :
  chars (simple_relator p q k) = mbind (λ i, chars (simple_piece p q k i)) (Py.range p).
Proof.
  unfold simple_relator.
  rewrite (chars_foldl_pieces _ (simple_piece p q k)); [done|].
  intros relator i. unfold simple_piece. simpl. by case_decide.
Qed.

Lemma count_a_simple_pieces p q k (l : list Z) :
  count_a (mbind (λ i, chars (simple_piece p q k i)) l) = Z.of_nat (length l).
Proof.
  induction l as [|i l IH]; [done|].
  rewrite bind_cons, count_a_app, IH. unfold simple_piece.
  case_decide; simpl length; unfold count_a; simpl; lia.
Qed.

Lemma count_other_simple_pieces p q k (l : list Z) :
  count_other (mbind (λ i, chars (simple_piece p q k i)) l)
  = Z.of_nat (length (filter (λ i, (i * q) `mod` p < k) l)).
Proof.
  induction l as [|i l IH]; [done|].
  rewrite bind_cons, count_other_app, IH. unfold simple_piece.
  case_decide.
  - rewrite filter_cons_True by done. unfold count_other. simpl. lia.
  - rewrite filter_cons_False by done. unfold count_other. simpl. lia.
Qed.

End relators.

Lemma simple_pieces_only_b p q k (l : list Z) :
  filter (λ c, c = "b"%char) (mbind (λ i, chars (simple_piece p q k i)) l)
  = filter (λ c, c ≠ "a"%char) (mbind (λ i, chars (simple_piece p q k i)) l).
Proof.
  induction l as [|i l IH]; [done|].
  rewrite bind_cons, !filter_app, IH. f_equal.
  unfold simple_piece. by case_decide.
Qed.

(** ** Residues of the multiples of [q] *)

Section residues.
Variables p q : Z.
Hypothesis p_pos : 0 < p.
Hypothesis coprime : Z.gcd p q = 1.

Lemma residue_inj i j :
  0 ≤ i < p → 0 ≤ j < p → (i * q) `mod` p = (j * q) `mod` p → i = j.
Proof.
  intros Hi Hj Heq.
  assert ((p | (i - j) * q)) as Hdiv.
  { apply Z.mod_divide; [lia|].
    rewrite Z.mul_sub_distr_r, Zminus_mod, Heq, Z.sub_diag. apply Z.mod_0_l. lia. }
  rewrite Z.mul_comm in Hdiv.
  apply Z.gauss in Hdiv; [|done].
  destruct Hdiv as [c Hc].
  assert (c = 0) by nia. lia.
Qed.

(** The residues [i*q mod p], [i = 0 .. p-1], are a rearrangement of
    [0 .. p-1]. *)
Lemma residues_permutation :
  (λ i, (i * q) `mod` p) <$> seqZ 0 p ≡ₚ seqZ 0 p.
Proof.
  apply submseteq_length_Permutation.
  - apply NoDup_submseteq.
    + apply NoDup_fmap_2_strong; [|apply NoDup_seqZ].
      intros i j Hi%elem_of_seqZ Hj%elem_of_seqZ. apply residue_inj; lia.
    + intros x (i & -> & Hi)%list_elem_of_fmap. apply elem_of_seqZ.
      pose proof (Z.mod_pos_bound (i * q) p p_pos). lia.
  - by rewrite length_fmap.
Qed.

Lemma filter_fmap_length (f : Z → Z) (k : Z) (l : list Z) :
  length (filter (λ i, f i < k) l) = length (filter (λ j, j < k) (f <$> l)).
Proof.
  induction l as [|i l IH]; [done|]. rewrite fmap_cons.
  destruct (decide (f i < k)).
  - rewrite !filter_cons_True by done. simpl. by rewrite IH.
  - rewrite !filter_cons_False by done. done.
Qed.

Lemma filter_all (P : Z → Prop) `{!∀ x, Decision (P x)} (l : list Z) :
  Forall P l → filter P l = l.
Proof.
  induction 1 as [|x l Hx _ IH]; [done|]. by rewrite filter_cons_True, IH.
Qed.

Lemma filter_none (P : Z → Prop) `{!∀ x, Decision (P x)} (l : list Z) :
  Forall (λ x, ¬ P x) l → filter P l = [].
Proof.
  induction 1 as [|x l Hx _ IH]; [done|]. by rewrite filter_cons_False, IH.
Qed.

Lemma filter_below_seqZ k :
  0 ≤ k ≤ p → length (filter (λ j, j < k) (seqZ 0 p)) = Z.to_nat k.
Proof.
  intros Hk. replace p with (k + (p - k)) by lia.
  rewrite seqZ_app, filter_app, length_app by lia.
  rewrite filter_all, filter_none.
  - rewrite length_seqZ. simpl. lia.
  - apply Forall_forall. intros x Hx%elem_of_seqZ. lia.
  - apply Forall_forall. intros x Hx%elem_of_seqZ. lia.
Qed.

(** Exactly [k] of the residues lie below [k]. *)
Lemma residues_below k :
  0 ≤ k ≤ p →
  length (filter (λ i, (i * q) `mod` p < k) (seqZ 0 p)) = Z.to_nat k.
Proof.
  intros Hk. rewrite (filter_fmap_length (λ i, (i * q) `mod` p)).
  rewrite residues_permutation. by apply filter_below_seqZ.
Qed.

End residues.

(** ** The Fox derivative at [t = 1] *)

Section fox.
Implicit Types (ab : gmap string Z) (c : ascii) (w : string) (d : gmap Z Z).

Lemma char_str_eqb c c' :
  String.eqb (char_str c) (char_str c') = bool_decide (c = c').
Proof.
  unfold char_str. simpl. destruct (Ascii.eqb_spec c c') as [->|Hne].
  - by rewrite bool_decide_eq_true_2.
  - by rewrite bool_decide_eq_false_2.
Qed.

Lemma hedden_base_a ab : hedden_knot.base ab "a" = Ok (Some {[ 0 := 1 ]}).
Proof. reflexivity. Qed.

Lemma hedden_base_b ab : hedden_knot.base ab "b" = Ok (Some {[ 0 := 0 ]}).
Proof. reflexivity. Qed.

Lemma hedden_base_other ab c e :
  c ≠ "a"%char → c ≠ "b"%char → ab !! "a" = Some e →
  hedden_knot.base ab c = Ok (Some {[ e := -1 ]}).
Proof.
  intros Ha Hb He. unfold hedden_knot.base.
  change "a" with (char_str "a"). change "b" with (char_str "b").
  rewrite !char_str_eqb, !bool_decide_eq_false_2 by done.
  unfold Py.getitem. change (char_str "a") with "a". by rewrite He.
Qed.

Lemma simple_base_a : simple_knot.base "a" = Ok (Some {[ 0 := 1 ]}).
Proof. reflexivity. Qed.

Lemma simple_base_other c :
  c ≠ "a"%char → simple_knot.base c = Ok (Some {[ 0 := 0 ]}).
Proof.
  intros Ha. unfold simple_knot.base. change "a" with (char_str "a").
  by rewrite char_str_eqb, bool_decide_eq_false_2.
Qed.

Lemma hedden_base_sum ab c :
  is_Some (ab !! "a") →
  ∃ d, hedden_knot.base ab c = Ok (Some d) ∧ coeff_sum d = hedden_weight c.
Proof.
  intros [e He]. unfold hedden_weight.
  destruct (decide (c = "a"%char)) as [->|Ha].
  { eexists. split; [apply hedden_base_a|]. by rewrite coeff_sum_singleton. }
  destruct (decide (c = "b"%char)) as [->|Hb].
  { eexists. split; [apply hedden_base_b|]. by rewrite coeff_sum_singleton. }
  eexists. split; [by apply hedden_base_other|]. by rewrite coeff_sum_singleton.
Qed.

Lemma simple_base_sum c :
  ∃ d, simple_knot.base c = Ok (Some d) ∧ coeff_sum d = simple_weight c.
Proof.
  unfold simple_weight. destruct (decide (c = "a"%char)) as [->|Ha].
  { eexists. split; [apply simple_base_a|]. by rewrite coeff_sum_singleton. }
  eexists. split; [by apply simple_base_other|]. by rewrite coeff_sum_singleton.
Qed.

Lemma fox_step_Ok ab c e h t :
  ab !! char_str c = Some e →
  fox_step ab c (Ok (Some h)) (Ok (Some t))
  = Ok (Some (add_laurent h (multiply_laurent {[ e := 1 ]} t))).
Proof. intros He. unfold fox_step, Py.getitem. simpl. by rewrite He. Qed.

(** On a non-empty word whose letters all have an image, the derivative is
    a polynomial whose coefficients sum to the weights of the letters; it
    is simplified as soon as the word has two letters. *)
Lemma hedden_free_differential_sum ab w :
  is_Some (ab !! "a") →
  (∀ c, c ∈ chars w → is_Some (ab !! char_str c)) →
  w ≠ EmptyString →
  ∃ d, hedden_knot.free_differential_a ab w = Ok (Some d)
       ∧ coeff_sum d = weight_sum hedden_weight (chars w)
       ∧ ((2 ≤ length (chars w))%nat → zero_free d).
Proof.
  intros Ha. induction w as [|c w IH]; intros Hin Hne; [done|].
  destruct (hedden_base_sum ab c Ha) as (h & Hh & Hhs).
  destruct w as [|c' w'].
  - exists h. simpl. split; [done|]. split; [lia|]. simpl. lia.
  - destruct IH as (t & Ht & Hts & _); [|done|].
    { intros x Hx. apply Hin. simpl. by right. }
    destruct (Hin c) as [e He]; [simpl; by left|].
    eexists. split; [|split].
    + change (hedden_knot.free_differential_a ab (String c (String c' w')))
        with (fox_step ab c (hedden_knot.base ab c)
                (hedden_knot.free_differential_a ab (String c' w'))).
      rewrite Hh, Ht. by apply fox_step_Ok.
    + rewrite coeff_sum_add_laurent, coeff_sum_multiply_monomial, Hhs, Hts.
      change (chars (String c (String c' w'))) with (c :: chars (String c' w')).
      simpl. lia.
    + intros _. apply add_laurent_zero_free.
Qed.

Lemma simple_free_differential_sum ab w :
  (∀ c, c ∈ chars w → is_Some (ab !! char_str c)) →
  w ≠ EmptyString →
  ∃ d, simple_knot.free_differential_a ab w = Ok (Some d)
       ∧ coeff_sum d = weight_sum simple_weight (chars w)
       ∧ ((2 ≤ length (chars w))%nat → zero_free d).
Proof.
  induction w as [|c w IH]; intros Hin Hne; [done|].
  destruct (simple_base_sum c) as (h & Hh & Hhs).
  destruct w as [|c' w'].
  - exists h. simpl. split; [done|]. split; [lia|]. simpl. lia.
  - destruct IH as (t & Ht & Hts & _); [|done|].
    { intros x Hx. apply Hin. simpl. by right. }
    destruct (Hin c) as [e He]; [simpl; by left|].
    eexists. split; [|split].
    + change (simple_knot.free_differential_a ab (String c (String c' w')))
        with (fox_step ab c (simple_knot.base c)
                (simple_knot.free_differential_a ab (String c' w'))).
      rewrite Hh, Ht. by apply fox_step_Ok.
    + rewrite coeff_sum_add_laurent, coeff_sum_multiply_monomial, Hhs, Hts.
      change (chars (String c (String c' w'))) with (c :: chars (String c' w')).
      simpl. lia.
    + intros _. apply add_laurent_zero_free.
Qed.

Lemma weight_sum_app weight l1 l2 :
  weight_sum weight (l1 ++ l2) = weight_sum weight l1 + weight_sum weight l2.
Proof. induction l1 as [|c l1 IH]; simpl; [done|]. rewrite IH. lia. Qed.

Lemma weight_sum_simple l : weight_sum simple_weight l = count_a l.
Proof.
  induction l as [|c l IH]; [done|]. simpl. rewrite IH.
  unfold simple_weight, count_a. case_decide.
  - rewrite filter_cons_True by done. simpl length. lia.
  - rewrite filter_cons_False by done. lia.
Qed.

(** Every relator has images for the letters a, b, A, B. *)
Lemma abelianization_defined w c :
  c ∈ ["a"; "b"; "A"; "B"]%char → is_Some (abelianization w !! char_str c).
Proof.
  rewrite abelianization_counts. intros Hc.
  repeat (apply elem_of_cons in Hc as [->|Hc]); [..|by apply elem_of_nil in Hc];
    vm_compute; eauto.
Qed.

End fox.

Section relator_letters.

Lemma hedden_relator_pieces p q :
  chars (hedden_relator p q)
  = chars "abAba" ++ mbind (λ i, chars (hedden_piece p q i)) (Py.range (p - 1)).
Proof.
  unfold hedden_relator.
  rewrite (chars_foldl_pieces _ (hedden_piece p q)); [done|].
  intros relator i. unfold hedden_piece. by case_decide.
Qed.

Lemma weight_sum_hedden_pieces p q (l : list Z) :
  weight_sum hedden_weight (mbind (λ i, chars (hedden_piece p q i)) l)
  = Z.of_nat (length l).
Proof.
  induction l as [|i l IH]; [done|].
  rewrite bind_cons, weight_sum_app, IH. unfold hedden_piece.
  case_decide; simpl length; vm_compute weight_sum; lia.
Qed.

Lemma hedden_pieces_letters p q (l : list Z) c :
  c ∈ mbind (λ i, chars (hedden_piece p q i)) l → c ∈ ["a"; "b"; "A"; "B"]%char.
Proof.
  intros (i & Hc & _)%list_elem_of_bind. unfold hedden_piece in Hc.
  case_decide; simpl in Hc;
    repeat (apply elem_of_cons in Hc as [->|Hc]);
    try (by apply elem_of_nil in Hc); repeat constructor.
Qed.

Lemma simple_pieces_letters p q k (l : list Z) c :
  c ∈ mbind (λ i, chars (simple_piece p q k i)) l → c ∈ ["a"; "b"; "A"; "B"]%char.
Proof.
  intros (i & Hc & _)%list_elem_of_bind. unfold simple_piece in Hc.
  case_decide; simpl in Hc;
    repeat (apply elem_of_cons in Hc as [->|Hc]);
    try (by apply elem_of_nil in Hc); repeat constructor.
Qed.

Lemma hedden_relator_letters p q c :
  c ∈ chars (hedden_relator p q) → c ∈ ["a"; "b"; "A"; "B"]%char.
Proof.
  rewrite hedden_relator_pieces. intros [Hc|Hc]%elem_of_app.
  - simpl in Hc. repeat (apply elem_of_cons in Hc as [->|Hc]);
    try (by apply elem_of_nil in Hc); repeat constructor.
  - by eapply hedden_pieces_letters.
Qed.

Lemma simple_relator_letters p q k c :
  c ∈ chars (simple_relator p q k) → c ∈ ["a"; "b"; "A"; "B"]%char.
Proof. rewrite simple_relator_pieces. apply simple_pieces_letters. Qed.

Lemma hedden_relator_weight p q :
  1 ≤ p → weight_sum hedden_weight (chars (hedden_relator p q)) = p.
Proof.
  intros Hp. rewrite hedden_relator_pieces, weight_sum_app, weight_sum_hedden_pieces.
  unfold Py.range. rewrite length_seqZ. vm_compute (weight_sum _ (chars "abAba")). lia.
Qed.

Lemma hedden_relator_length p q : (5 ≤ length (chars (hedden_relator p q)))%nat.
Proof. rewrite hedden_relator_pieces, length_app. simpl. lia. Qed.

Lemma simple_relator_count_a p q k :
  0 ≤ p → count_a (chars (simple_relator p q k)) = p.
Proof.
  intros Hp. rewrite simple_relator_pieces, count_a_simple_pieces.
  unfold Py.range. rewrite length_seqZ. lia.
Qed.

Lemma count_a_length l : count_a l ≤ Z.of_nat (length l).
Proof. unfold count_a. pose proof (length_filter (λ c, c = "a"%char) l). lia. Qed.

Lemma chars_nil_inv w : chars w = [] → w = EmptyString.
Proof. by destruct w. Qed.

End relator_letters.

(** ** The normalisation pipeline *)

Section pipeline.
Implicit Types (d poly : gmap Z Z).

Lemma positive_laurent_zero_free d :
  zero_free d → d ≠ ∅ →
  ∃ r, positive_laurent d = Ok r ∧ zero_free r ∧ r ≠ ∅
       ∧ coeff_sum r = coeff_sum d ∧ is_min_key r 0.
Proof.
  intros Hz Hne. destruct (min_nonempty d Hne) as (lo & Hlo & Hmin).
  eexists. split; [by apply positive_laurent_Ok|].
  assert (is_min_key (multiply_laurent {[ - lo := 1 ]} d) 0) as Hmin'.
  { replace 0 with (lo + - lo) by lia. by apply is_min_key_shift. }
  split; [apply multiply_laurent_zero_free|].
  split; [by eapply is_min_key_nonempty|].
  split; [|done]. rewrite coeff_sum_multiply_monomial. lia.
Qed.

Lemma symmetrize_laurent_centred d :
  zero_free d → d ≠ ∅ →
  ∃ r, symmetrize_laurent d = Ok r ∧ coeff_sum r = coeff_sum d ∧ centred r.
Proof.
  intros Hz Hne.
  destruct (min_nonempty d Hne) as (lo & _ & Hmin).
  destruct (max_nonempty d Hne) as (hi & _ & Hmax).
  eexists. split; [by apply symmetrize_laurent_Ok|].
  split; [rewrite coeff_sum_multiply_monomial; lia|].
  exists (lo + - ((hi + lo) `div` 2)), (hi + - ((hi + lo) `div` 2)).
  split; [by apply is_min_key_shift|]. split; [by apply is_max_key_shift|].
  pose proof (Z.div_mod (hi + lo) 2). pose proof (Z.mod_pos_bound (hi + lo) 2). lia.
Qed.

End pipeline.

(** ** [hedden_knot] *)

Lemma hedden_knot_init_spec (p q : Z) :
  1 ≤ p →
  ∃ knot, hedden_knot.init p q = Ok knot
    ∧ coeff_sum (hedden_knot.alexander_polynomial knot) = p
    ∧ centred (hedden_knot.alexander_polynomial knot).
Proof.
  intros Hp. unfold hedden_knot.init.
  destruct (hedden_free_differential_sum (abelianization (hedden_relator p q))
              (hedden_relator p q)) as (d & Hd & Hsum & Hz).
  { apply abelianization_defined. repeat constructor. }
  { intros c Hc. by apply abelianization_defined, (hedden_relator_letters p q). }
  { intros E. pose proof (hedden_relator_length p q) as Hl. rewrite E in Hl.
    simpl in Hl. lia. }
  rewrite hedden_relator_weight in Hsum by done.
  assert (zero_free d) as Hzd.
  { apply Hz. pose proof (hedden_relator_length p q). lia. }
  assert (d ≠ ∅) as Hne by (apply coeff_sum_nonzero_nonempty; lia).
  rewrite Hd. simpl.
  rewrite simplify_laurent_keys_zero_free by done. simpl.
  destruct (positive_laurent_zero_free d Hzd Hne) as (r & -> & Hzr & Hner & Hsr & _).
  simpl.
  destruct (symmetrize_laurent_centred r Hzr Hner) as (s & -> & Hss & Hc). simpl.
  eexists. split; [done|]. simpl. split; [lia|done].
Qed.

(** ** [divide_laurent] and its accumulator *)

Section divide.
Implicit Types (quotient Q W : gmap Z Z) (fuel : nat).

Lemma divide_laurent_unfold fuel poly1 poly2 quotient :
  divide_laurent (S fuel) poly1 poly2 quotient =
    on_return (divide_step poly1 poly2) quotient (λ '(k, c),
      let quotient := <[k := c]> quotient in
      if k =? 0 then (Ok quotient, quotient)
      else divide_laurent fuel
             (add_laurent poly1 (multiply_laurent {[ k := - c ]} poly2))
             poly2 quotient).
Proof.
  unfold divide_step. simpl.
  destruct (Py.max poly1) as [hi1| | |]; simpl; try done.
  destruct (Py.max poly2) as [hi2| | |]; simpl; try done.
  destruct (hi1 - hi2 =? 0) eqn:E; simpl; [done|].
  destruct (Py.getitem poly1 hi1) as [x| | |]; simpl; try done.
  destruct (Py.getitem poly2 hi2) as [y| | |]; simpl; try done.
  destruct (Py.int_truediv x y) as [c| | |]; simpl; try done.
  by rewrite E.
Qed.

(** What the call returns is the accumulator object. *)
Lemma divide_laurent_returns_accumulator fuel poly1 poly2 quotient Q :
  (divide_laurent fuel poly1 poly2 quotient).1 = Ok Q →
  (divide_laurent fuel poly1 poly2 quotient).2 = Q.
Proof.
  revert poly1 quotient. induction fuel as [|fuel IH]; intros poly1 quotient; [done|].
  rewrite divide_laurent_unfold.
  destruct (divide_step poly1 poly2) as [[k c]| | |]; simpl; try done.
  destruct (k =? 0); simpl; [congruence|apply IH].
Qed.

(** The entries written do not depend on what the accumulator held: the
    call lays them over its previous content. *)
Lemma divide_laurent_overlay fuel poly1 poly2 quotient :
  divide_laurent fuel poly1 poly2 quotient =
    ((λ W, W ∪ quotient) <$> (divide_laurent fuel poly1 poly2 ∅).1,
     (divide_laurent fuel poly1 poly2 ∅).2 ∪ quotient).
Proof.
  revert poly1 quotient. induction fuel as [|fuel IH]; intros poly1 quotient.
  { simpl. by rewrite (left_id_L ∅ (∪)). }
  rewrite !divide_laurent_unfold.
  destruct (divide_step poly1 poly2) as [[k c]| | |]; simpl;
    try by rewrite (left_id_L ∅ (∪)).
  assert (<[k := c]> (∅ : gmap Z Z) ∪ quotient = <[k := c]> quotient) as Hins.
  { by rewrite <-insert_union_l, (left_id_L ∅ (∪)). }
  destruct (k =? 0); simpl.
  - unfold fmap, result_fmap. simpl. by rewrite Hins.
  - rewrite (IH _ (<[k := c]> quotient)), (IH _ (<[k := c]> ∅)). simpl.
    set (r := divide_laurent fuel _ poly2 ∅). f_equal.
    + destruct (r.1); try done. unfold fmap, result_fmap. simpl.
      by rewrite <-(assoc_L (∪)), Hins.
    + by rewrite <-(assoc_L (∪)), Hins.
Qed.

(** Calling twice in succession on the same polynomials and the same
    accumulator object returns the same quotient. *)
Lemma divide_laurent_again fuel poly1 poly2 quotient Q :
  (divide_laurent fuel poly1 poly2 quotient).1 = Ok Q →
  divide_laurent fuel poly1 poly2 Q = (Ok Q, Q).
Proof.
  intros HQ. rewrite divide_laurent_overlay in HQ. rewrite divide_laurent_overlay.
  simpl in HQ. destruct (divide_laurent fuel poly1 poly2 ∅) as [r W'] eqn:E.
  pose proof (divide_laurent_returns_accumulator fuel poly1 poly2 ∅) as Hacc.
  rewrite E in Hacc. simpl in *.
  destruct r as [W| | |]; try done.
  rewrite (Hacc W eq_refl). unfold fmap, result_fmap in *. simpl in *.
  assert (Q = W ∪ quotient) as -> by congruence.
  by rewrite (assoc_L (∪)), (idemp_L (∪)).
Qed.

(** More fuel does not change a call that returned. *)
Lemma divide_laurent_fuel_mono fuel fuel' poly1 poly2 quotient Q :
  (divide_laurent fuel poly1 poly2 quotient).1 = Ok Q → (fuel ≤ fuel')%nat →
  divide_laurent fuel' poly1 poly2 quotient = divide_laurent fuel poly1 poly2 quotient.
Proof.
  revert fuel' poly1 quotient.
  induction fuel as [|fuel IH]; intros fuel' poly1 quotient HQ Hle; [done|].
  destruct fuel' as [|fuel']; [lia|].
  rewrite !divide_laurent_unfold in *.
  destruct (divide_step poly1 poly2) as [[k c]| | |]; simpl in *; try done.
  destruct (k =? 0); simpl in *; [done|]. apply IH; [done|lia].
Qed.

Lemma divide_step_leading poly1 poly2 hi2 k c :
  zero_free poly1 → Py.max poly2 = Ok hi2 → poly2 !! hi2 = Some 1 →
  divide_step poly1 poly2 = Ok (k, c) → c ≠ 0.
Proof.
  intros Hz Hhi2 Hlead. unfold divide_step. rewrite Hhi2.
  destruct (Py.max poly1) as [hi1| | |] eqn:Hhi1; simpl; try done.
  destruct (hi1 - hi2 =? 0); simpl; [intros [= <- <-]; lia|].
  unfold Py.getitem. rewrite Hlead.
  destruct (poly1 !! hi1) as [x|] eqn:Hx; simpl; [|done].
  unfold Py.int_truediv. rewrite decide_False by lia.
  case_decide; simpl; [|done].
  intros [= <- <-]. rewrite Z.quot_1_r. intros ->. by apply Hz in Hx.
Qed.

(** Dividing a simplified polynomial by one with leading coefficient 1
    writes no zero coefficient. *)
Lemma divide_laurent_zero_free fuel poly1 poly2 hi2 quotient Q :
  zero_free poly1 → Py.max poly2 = Ok hi2 → poly2 !! hi2 = Some 1 →
  zero_free (delete 0 quotient) →
  (divide_laurent fuel poly1 poly2 quotient).1 = Ok Q → zero_free Q.
Proof.
  intros Hz Hhi2 Hlead. revert poly1 quotient Hz.
  induction fuel as [|fuel IH]; intros poly1 quotient Hz HQz; [done|].
  rewrite divide_laurent_unfold.
  destruct (divide_step poly1 poly2) as [[k c]| | |] eqn:Hstep; simpl; try done.
  pose proof (divide_step_leading _ _ _ _ _ Hz Hhi2 Hlead Hstep) as Hc.
  destruct (k =? 0) eqn:Hk; simpl.
  - intros [= <-]. apply Z.eqb_eq in Hk as ->.
    rewrite <-insert_delete_eq. by apply zero_free_insert.
  - apply IH; [apply add_laurent_zero_free|].
    apply Z.eqb_neq in Hk. rewrite delete_insert_ne by done.
    by apply zero_free_insert.
Qed.

End divide.

(** ** [allones] *)

Lemma lookup_allones (p n : Z) :
  allones p !! n = if decide (0 ≤ n < p) then Some 1 else None.
Proof.
  unfold allones, Py.range.
  assert (∀ l : list Z, (list_to_map ((λ power, (power, 1)) <$> l) : gmap Z Z) !! n
                        = if decide (n ∈ l) then Some 1 else None) as Hl.
  { induction l as [|x l IH].
    - rewrite fmap_nil, list_to_map_nil, lookup_empty.
      rewrite decide_False; [done|]. apply not_elem_of_nil.
    - rewrite fmap_cons, list_to_map_cons, lookup_insert. destruct (decide (x = n)) as [->|Hne].
      + rewrite decide_True; [done|by left].
      + rewrite IH. destruct (decide (n ∈ l)).
        * rewrite decide_True; [done|by right].
        * rewrite decide_False; [done|]. intros [->|?]%elem_of_cons; done. }
  etrans; [apply (Hl (seqZ 0 p))|]. destruct (decide (0 ≤ n < p)).
  - rewrite decide_True; [done|]. apply elem_of_seqZ. lia.
  - rewrite decide_False; [done|]. rewrite elem_of_seqZ. lia.
Qed.

Lemma allones_max (p : Z) : 0 < p → Py.max (allones p) = Ok (p - 1).
Proof.
  intros Hp. apply max_Ok. split.
  - rewrite lookup_allones, decide_True by lia. eauto.
  - intros j. rewrite lookup_allones. case_decide; [lia|by intros [? ?]].
Qed.

Lemma allones_zero_free (p : Z) : zero_free (allones p).
Proof. intros n. rewrite lookup_allones. case_decide; congruence. Qed.

(** ** [simple_knot] *)

Lemma simple_knot_init_centred (fuel : nat) (p q k : Z) knot :
  simple_knot.init fuel p q k = Ok knot →
  centred (simple_knot.alexander_polynomial knot).
Proof.
  unfold simple_knot.init.
  destruct (simple_knot.free_differential_a _ _) as [[d|]| | |]; simpl; try done.
  destruct (simplify_laurent (Py.keys d) d).1 as [s| | |] eqn:Hs; simpl; try done.
  destruct (positive_laurent s) as [pos| | |] eqn:Hpos; simpl; try done.
  destruct (divide_laurent fuel pos (allones p) {[0 := 0]}).1 as [quo| | |] eqn:Hquo;
    simpl; try done.
  assert (zero_free quo) as Hz.
  { destruct (decide (0 < p)) as [Hp|Hp].
    - eapply (divide_laurent_zero_free fuel pos (allones p) (p - 1) {[0 := 0]});
        [|by apply allones_max| | |done].
      + unfold positive_laurent in Hpos.
        destruct (Py.min s); simpl in Hpos; try done.
        injection Hpos as <-. apply multiply_laurent_zero_free.
      + rewrite lookup_allones, decide_True by lia. done.
      + rewrite delete_singleton_eq. apply zero_free_empty.
    - assert (allones p = ∅) as Hempty.
      { apply map_eq. intros n. rewrite lookup_allones, lookup_empty.
        rewrite decide_False; [done|lia]. }
      rewrite Hempty in Hquo. destruct fuel as [|fuel]; [done|].
      rewrite divide_laurent_unfold in Hquo. unfold divide_step in Hquo.
      rewrite max_empty in Hquo. by destruct (Py.max pos). }
  destruct (symmetrize_laurent quo) as [alex| | |] eqn:Halex; simpl; try done.
  intros [= <-]. simpl.
  assert (quo ≠ ∅) as Hne.
  { intros ->. unfold symmetrize_laurent in Halex. by rewrite max_empty in Halex. }
  destruct (symmetrize_laurent_centred quo Hz Hne) as (r & Hr & _ & Hc).
  congruence.
Qed.

(** ** Coefficients of a product *)

Section products.
Implicit Types (poly p q : gmap Z Z) (f g : Z → Z) (n i j c : Z).

Lemma conv_empty f n : conv ∅ f n = 0.
Proof. apply map_fold_empty. Qed.

Lemma conv_insert_fresh poly i c f n :
  poly !! i = None → conv (<[i := c]> poly) f n = c * f (n - i) + conv poly f n.
Proof.
  intros Hi. unfold conv. rewrite map_fold_insert_L; [done| |done]. intros. lia.
Qed.

Lemma coef_multiply_laurent p q n :
  coef (multiply_laurent p q) n = conv p (coef q) n.
Proof.
  unfold multiply_laurent. rewrite coef_drop_zeros. revert n.
  apply (map_fold_weak_ind (λ r m, ∀ n, coef r n = conv m (coef q) n)).
  - intros n. by rewrite coef_empty, conv_empty.
  - intros i x m r Hi IH n.
    rewrite coef_fold_shift, conv_insert_fresh, IH by done. lia.
Qed.

Lemma conv_ext poly f g n :
  (∀ i, is_Some (poly !! i) → f (n - i) = g (n - i)) → conv poly f n = conv poly g n.
Proof.
  induction poly as [|i c poly Hi IH] using map_ind; intros Hfg.
  - by rewrite !conv_empty.
  - rewrite !conv_insert_fresh by done. rewrite IH, Hfg; [done| |].
    + rewrite lookup_insert_eq. eauto.
    + intros j Hj. apply Hfg. rewrite lookup_insert_ne; [done|].
      intros ->. rewrite Hi in Hj. by destruct Hj.
Qed.

Lemma conv_plus poly f g n :
  conv poly (λ m, f m + g m) n = conv poly f n + conv poly g n.
Proof.
  induction poly as [|i c poly Hi IH] using map_ind.
  - by rewrite !conv_empty.
  - rewrite !conv_insert_fresh, IH by done. lia.
Qed.

Lemma conv_delta poly j c n :
  conv poly (λ m, if decide (m = j) then c else 0) n = c * coef poly (n - j).
Proof.
  induction poly as [|i a poly Hi IH] using map_ind.
  - rewrite conv_empty, coef_empty. lia.
  - rewrite conv_insert_fresh, IH, coef_insert by done.
    repeat case_decide; try lia.
    assert (n - j = i) as Hnj by lia. unfold coef. rewrite Hnj, Hi. simpl. lia.
Qed.

Lemma conv_zero poly f n :
  (∀ i, is_Some (poly !! i) → f (n - i) = 0) → conv poly f n = 0.
Proof.
  intros Hf. rewrite (conv_ext _ _ (λ _, 0)) by done. clear Hf.
  induction poly as [|i c poly Hi IH] using map_ind.
  - by rewrite conv_empty.
  - rewrite conv_insert_fresh, IH by done. lia.
Qed.

Lemma conv_single poly f n i :
  (∀ j, is_Some (poly !! j) → j ≠ i → f (n - j) = 0) →
  conv poly f n = coef poly i * f (n - i).
Proof.
  intros Hf.
  rewrite (conv_ext _ _ (λ m, if decide (m = n - i) then f (n - i) else 0)).
  - rewrite conv_delta. replace (n - (n - i)) with i by lia. lia.
  - intros j Hj. case_decide as E; [by rewrite E|].
    apply Hf; [done|]. intros ->. done.
Qed.

(** The sum of the coefficients is multiplicative. *)
Lemma coeff_sum_multiply_laurent p q :
  coeff_sum (multiply_laurent p q) = coeff_sum p * coeff_sum q.
Proof.
  unfold multiply_laurent. rewrite coeff_sum_drop_zeros.
  apply (map_fold_weak_ind (λ r m, coeff_sum r = coeff_sum m * coeff_sum q)).
  - rewrite !coeff_sum_empty. lia.
  - intros i x m r Hi IH.
    rewrite coeff_sum_fold_shift, coeff_sum_insert_fresh, IH by done. lia.
Qed.

Lemma coef_above_max poly hi n : is_max_key poly hi → hi < n → coef poly n = 0.
Proof.
  intros [_ Hle] Hn. unfold coef. destruct (poly !! n) as [c|] eqn:E; [|done].
  assert (n ≤ hi) by (apply Hle; eauto). lia.
Qed.

(** The leading term of a product. *)
Lemma multiply_laurent_leading p q hp hq :
  is_max_key p hp → coef p hp ≠ 0 → is_max_key q hq → coef q hq ≠ 0 →
  is_max_key (multiply_laurent p q) (hp + hq)
  ∧ multiply_laurent p q !! (hp + hq) = Some (coef p hp * coef q hq).
Proof.
  intros Hp Hcp Hq Hcq.
  assert (coef (multiply_laurent p q) (hp + hq) = coef p hp * coef q hq) as Hlead.
  { rewrite coef_multiply_laurent, (conv_single _ _ _ hp).
    - by replace (hp + hq - hp) with hq by lia.
    - intros j Hj Hne. apply (coef_above_max q hq); [done|].
      assert (j ≤ hp) by (by apply Hp). lia. }
  assert (multiply_laurent p q !! (hp + hq) = Some (coef p hp * coef q hq)) as Hl.
  { rewrite <-Hlead. apply coef_nonzero_lookup. rewrite Hlead. lia. }
  split; [|done]. split; [eauto|].
  intros j Hj. destruct (decide (j ≤ hp + hq)) as [|Hgt]; [done|].
  apply zero_free_coef in Hj; [|apply multiply_laurent_zero_free].
  contradict Hj. rewrite coef_multiply_laurent. apply conv_zero.
  intros i Hi. apply (coef_above_max q hq); [done|].
  assert (i ≤ hp) by (by apply Hp). lia.
Qed.

End products.

(** ** Dividing a product by one of its factors *)

Section roundtrip.
Variables (poly2 : gmap Z Z) (hi2 c2 : Z).
Hypothesis divisor_max : is_max_key poly2 hi2.
Hypothesis divisor_lead : poly2 !! hi2 = Some c2.
Hypothesis lead_nonzero : c2 ≠ 0.
Hypothesis lead_exact : Py.float_exact c2.

Implicit Types (q Q : gmap Z Z).

Lemma divisor_coef : coef poly2 hi2 = c2.
Proof. unfold coef. by rewrite divisor_lead. Qed.

(** Removing the leading term of the quotient from the product. *)
Lemma multiply_delete_leading q hq :
  add_laurent (multiply_laurent poly2 q)
              (multiply_laurent {[ hq := - coef q hq ]} poly2)
  = multiply_laurent poly2 (delete hq q).
Proof.
  apply zero_free_ext;
    [apply add_laurent_zero_free|apply multiply_laurent_zero_free|].
  intros n.
  rewrite coef_add_laurent, coef_multiply_monomial, !coef_multiply_laurent.
  rewrite (conv_ext _ (coef q)
             (λ m, coef (delete hq q) m + (if decide (m = hq) then coef q hq else 0))).
  - rewrite conv_plus, conv_delta. lia.
  - intros i _. rewrite coef_delete.
    destruct (decide (hq = n - i)) as [->|Hne].
    + rewrite decide_True by done. lia.
    + rewrite decide_False by congruence. lia.
Qed.

Lemma divide_step_product q hq :
  zero_free q → is_max_key q hq → Py.float_exact (c2 * coef q hq) →
  divide_step (multiply_laurent poly2 q) poly2
  = Ok (if decide (hq = 0) then (0, 1) else (hq, coef q hq)).
Proof.
  intros Hz Hq Hex.
  assert (coef q hq ≠ 0) as Hcq by (apply zero_free_coef; [done|apply Hq]).
  destruct (multiply_laurent_leading poly2 q hi2 hq) as [Hmax Hlead]; try done.
  { by rewrite divisor_coef. }
  unfold divide_step.
  rewrite (proj2 (max_Ok _ _) Hmax), (proj2 (max_Ok _ _) divisor_max). simpl.
  replace (hi2 + hq - hi2) with hq by lia.
  case_decide as E.
  - subst. done.
  - apply Z.eqb_neq in E as E'. rewrite E'. unfold Py.getitem.
    rewrite Hlead, divisor_lead, divisor_coef. simpl.
    unfold Py.int_truediv. rewrite decide_False, decide_True by done.
    simpl. by rewrite Z.mul_comm, Z.quot_mul.
Qed.

(** With a quotient [q] whose lowest term is the constant 1, the recursion
    writes exactly the entries of [q] into the accumulator. *)
Lemma divide_laurent_product fuel q Q :
  zero_free q → is_min_key q 0 → q !! 0 = Some 1 →
  (∀ n, Py.float_exact (c2 * coef q n)) →
  (size q ≤ fuel)%nat →
  divide_laurent fuel (multiply_laurent poly2 q) poly2 Q = (Ok (q ∪ Q), q ∪ Q).
Proof.
  revert q Q. induction fuel as [|fuel IH]; intros q Q Hz Hmin H0 Hex Hsize.
  { assert (q = ∅) as -> by (apply map_size_empty_inv; lia).
    by rewrite lookup_empty in H0. }
  destruct (max_nonempty q (is_min_key_nonempty _ _ Hmin)) as (hq & _ & Hmax).
  rewrite divide_laurent_unfold, (divide_step_product q hq) by done.
  case_decide as E; simpl.
  - subst hq. assert (q = {[ 0 := 1 ]}) as ->.
    { apply map_eq. intros n. destruct (decide (n = 0)) as [->|Hn].
      - by rewrite lookup_singleton_eq.
      - rewrite lookup_singleton_ne by done.
        destruct (q !! n) as [c|] eqn:En; [|done].
        assert (0 ≤ n) by (apply Hmin; eauto).
        assert (n ≤ 0) by (apply Hmax; eauto). lia. }
    by rewrite <-insert_union_singleton_l.
  - apply Z.eqb_neq in E as E'. rewrite E'.
    rewrite multiply_delete_leading.
    assert (q !! hq = Some (coef q hq)) as Hl.
    { apply coef_nonzero_lookup, zero_free_coef; [done|apply Hmax]. }
    rewrite IH.
    + assert (delete hq q ∪ <[hq := coef q hq]> Q = q ∪ Q) as ->; [|done].
      apply map_eq. intros n. rewrite !lookup_union, lookup_delete, lookup_insert.
      destruct (decide (hq = n)) as [<-|Hn]; [|done].
      rewrite Hl. simpl. by destruct (Q !! hq).
    + by apply zero_free_delete.
    + destruct Hmin as [Hs Hle]. split.
      * by rewrite lookup_delete_ne.
      * intros j [c Hj]. apply Hle. apply lookup_delete_Some in Hj as [_ Hj]. eauto.
    + by rewrite lookup_delete_ne.
    + intros n. rewrite coef_delete. case_decide; [|done].
      rewrite Z.mul_0_r. unfold Py.float_exact. simpl. lia.
    + rewrite map_size_delete, Hl. simpl. lia.
Qed.

End roundtrip.


(** For valid parameters the simple relator has [p] letters "a" and [k]
    other letters. *)
Lemma simple_relator_counts (p q k : Z) :
  0 < p → Z.gcd p q = 1 → 0 < k < p →
  count_a (chars (simple_relator p q k)) = p
  ∧ count_other (chars (simple_relator p q k)) = k.
Proof.
  intros Hp Hgcd Hk. split.
  - apply simple_relator_count_a. lia.
  - rewrite simple_relator_pieces, count_other_simple_pieces. unfold Py.range.
    rewrite residues_below by (done || lia). lia.
Qed.

(** ** Sums over an index range *)

Lemma zsum_app f l1 l2 : zsum f (l1 ++ l2) = zsum f l1 + zsum f l2.
Proof. induction l1 as [|i l1 IH]; simpl; [done|]. rewrite IH. lia. Qed.

Lemma zsum_seqZ_S f (k : nat) :
  zsum f (seqZ 0 (Z.of_nat (S k))) = zsum f (seqZ 0 (Z.of_nat k)) + f (Z.of_nat k).
Proof.
  rewrite seqZ_S, zsum_app.
  change (zsum f [0 + Z.of_nat k]) with (f (0 + Z.of_nat k) + 0).
  rewrite Z.add_0_l. lia.
Qed.

Lemma allones_S (k : nat) :
  allones (Z.of_nat (S k)) = <[Z.of_nat k := 1]> (allones (Z.of_nat k)).
Proof.
  apply map_eq. intros n. rewrite lookup_insert, !lookup_allones.
  repeat case_decide; try done; lia.
Qed.

Lemma conv_allones_nat (k : nat) f n :
  conv (allones (Z.of_nat k)) f n = zsum (λ i, f (n - i)) (seqZ 0 (Z.of_nat k)).
Proof.
  induction k as [|k IH].
  - assert (allones (Z.of_nat 0) = ∅) as ->.
    { apply map_eq. intros j. rewrite lookup_allones, lookup_empty.
      rewrite decide_False; [done|lia]. }
    by rewrite conv_empty.
  - rewrite allones_S, conv_insert_fresh, zsum_seqZ_S, IH.
    + lia.
    + rewrite lookup_allones, decide_False; [done|lia].
Qed.

Lemma conv_allones p f n :
  0 ≤ p → conv (allones p) f n = zsum (λ i, f (n - i)) (seqZ 0 p).
Proof.
  intros Hp. rewrite <-(Z2Nat.id p) by done. apply conv_allones_nat.
Qed.

Lemma coeff_sum_allones p : 0 ≤ p → coeff_sum (allones p) = p.
Proof.
  intros Hp. rewrite <-(Z2Nat.id p) by done.
  induction (Z.to_nat p) as [|k IH].
  - assert (allones (Z.of_nat 0) = ∅) as ->.
    { apply map_eq. intros j. rewrite lookup_allones, lookup_empty.
      rewrite decide_False; [done|lia]. }
    by rewrite coeff_sum_empty.
  - rewrite allones_S, coeff_sum_insert_fresh, IH; [lia|].
    rewrite lookup_allones, decide_False; [done|lia].
Qed.

(** A sum of differences of consecutive values collapses. *)
Lemma zsum_telescope (g : Z → Z) n (k : nat) :
  zsum (λ i, g (n - i - 1) - g (n - i)) (seqZ 0 (Z.of_nat k)) = g (n - Z.of_nat k) - g n.
Proof.
  induction k as [|k IH].
  - change (Z.of_nat 0) with 0. rewrite Z.sub_0_r. simpl. lia.
  - rewrite zsum_seqZ_S, IH.
    replace (n - Z.of_nat (S k)) with (n - Z.of_nat k - 1) by lia. lia.
Qed.

Lemma zsum_indicator n (k : nat) :
  zsum (λ i, if decide (n - i = 0) then 1 else 0) (seqZ 0 (Z.of_nat k))
  = if decide (0 ≤ n < Z.of_nat k) then 1 else 0.
Proof.
  induction k as [|k IH].
  - simpl. rewrite decide_False; [done|lia].
  - rewrite zsum_seqZ_S, IH. repeat case_decide; lia.
Qed.

Lemma zsum_ext f g l : (∀ i, f i = g i) → zsum f l = zsum g l.
Proof. intros H. induction l as [|i l IH]; simpl; [done|]. by rewrite IH, H. Qed.

Lemma zsum_plus f g l : zsum (λ i, f i + g i) l = zsum f l + zsum g l.
Proof. induction l as [|i l IH]; simpl; [done|]. rewrite IH. lia. Qed.

(** Entries of a map built from a table of values. *)
Lemma lookup_tabulate (f : Z → Z) (l : list Z) n :
  (list_to_map ((λ i, (i, f i)) <$> l) : gmap Z Z) !! n
  = if decide (n ∈ l) then Some (f n) else None.
Proof.
  induction l as [|x l IH].
  - rewrite fmap_nil, list_to_map_nil, lookup_empty.
    rewrite decide_False; [done|]. apply not_elem_of_nil.
  - rewrite fmap_cons, list_to_map_cons, lookup_insert.
    destruct (decide (x = n)) as [->|Hne].
    + rewrite decide_True; [done|by left].
    + rewrite IH. destruct (decide (n ∈ l)).
      * rewrite decide_True; [done|by right].
      * rewrite decide_False; [done|]. intros [->|?]%elem_of_cons; done.
Qed.

Lemma NoDup_fmap_inj {A B} (f : A → B) (l : list A) :
  NoDup (f <$> l) → ∀ x y, x ∈ l → y ∈ l → f x = f y → x = y.
Proof.
  induction l as [|a l IH]; intros Hnd x y Hx Hy Hxy.
  - by apply elem_of_nil in Hx.
  - rewrite fmap_cons in Hnd. apply NoDup_cons in Hnd as [Ha Hnd].
    apply elem_of_cons in Hx as [->|Hx]; apply elem_of_cons in Hy as [->|Hy].
    + done.
    + contradict Ha. rewrite Hxy. by apply list_elem_of_fmap_2.
    + contradict Ha. rewrite <-Hxy. by apply list_elem_of_fmap_2.
    + by apply IH.
Qed.

(** ** Exponents with pairwise different residues *)

Section complete_residues.
Variable p : Z.
Variable E : list Z.
Variable m : Z.
Hypothesis p_pos : 0 < p.
Hypothesis residues : (λ e, e `mod` p) <$> E ≡ₚ seqZ 0 p.
Hypothesis m_in : m ∈ E.
Hypothesis m_least : ∀ e, e ∈ E → m ≤ e.

Lemma shifted_nonneg n : shifted E m n → 0 ≤ n.
Proof. intros H. apply m_least in H. lia. Qed.

Lemma shifted_0 : shifted E m 0.
Proof. unfold shifted. by rewrite Z.add_0_l. Qed.

Lemma class_representative n : ∃ s, shifted E m s ∧ s `mod` p = n `mod` p.
Proof.
  assert ((n + m) `mod` p ∈ seqZ 0 p) as Hin.
  { apply elem_of_seqZ. pose proof (Z.mod_pos_bound (n + m) p p_pos). lia. }
  rewrite <-residues in Hin. apply list_elem_of_fmap in Hin as (e & He & Hin).
  exists (e - m). split.
  - unfold shifted. by replace (e - m + m) with e by lia.
  - rewrite Zminus_mod, <-He, <-Zminus_mod. f_equal. lia.
Qed.

Lemma class_unique s s' :
  shifted E m s → shifted E m s' → s `mod` p = s' `mod` p → s = s'.
Proof.
  intros Hs Hs' Heq.
  assert (s + m = s' + m); [|lia].
  apply (NoDup_fmap_inj (λ e, e `mod` p) E); [|done|done|].
  - rewrite residues. apply NoDup_seqZ.
  - simpl. by rewrite (Zplus_mod s), Heq, <-Zplus_mod.
Qed.

Lemma congruent_diff a b : a `mod` p = b `mod` p → ∃ j, a = b + p * j.
Proof.
  intros H. exists (a `div` p - b `div` p).
  pose proof (Z.div_mod a p). pose proof (Z.div_mod b p). lia.
Qed.

Lemma above_spec n s :
  shifted E m s → s `mod` p = n `mod` p →
  above p E m n = if decide (0 ≤ n ∧ n < s) then 1 else 0.
Proof.
  intros Hs Hmod. unfold above.
  destruct (decide (0 ≤ n ∧ n < s)) as [[H0 Hlt]|Hn].
  - rewrite decide_True; [done|]. split; [done|].
    apply Exists_exists. exists (s + m). split; [done|].
    replace (s + m - m) with s by lia. done.
  - rewrite decide_False; [done|]. intros [H0 Hex].
    apply Exists_exists in Hex as (e & He & Hlt & Hmod').
    assert (e - m = s); [|lia].
    apply class_unique; [|done|congruence].
    unfold shifted. by replace (e - m + m) with e by lia.
Qed.

(** The product of [1 + t + ... + t^(p-1)] with the quotient has
    coefficient 1 exactly at the shifted E m exponents. *)
Lemma quotient_coef_sum n :
  zsum (λ i, quotient_coef p E m (n - i)) (seqZ 0 p) = if decide (shifted E m n) then 1 else 0.
Proof.
  rewrite (zsum_ext _ (λ i, (if decide (n - i = 0) then 1 else 0)
                            + (above p E m (n - i - 1) - above p E m (n - i))))
    by (intros i; unfold quotient_coef; lia).
  rewrite (zsum_plus (λ i, if decide (n - i = 0) then 1 else 0)
                     (λ i, above p E m (n - i - 1) - above p E m (n - i)) (seqZ 0 p)).
  rewrite <-(Z2Nat.id p) at 1 2 by lia.
  rewrite zsum_indicator, zsum_telescope, Z2Nat.id by lia.
  destruct (class_representative n) as (s & Hs & Hmod).
  rewrite (above_spec n s), (above_spec (n - p) s); try done.
  2:{ rewrite Hmod. rewrite Zminus_mod, Z_mod_same_full, Z.sub_0_r.
      by rewrite Z.mod_mod by lia. }
  pose proof (shifted_nonneg s Hs) as Hs0.
  destruct (congruent_diff s n Hmod) as [j Hj].
  destruct (decide (shifted E m n)) as [Hn|Hn].
  - assert (s = n) as -> by (by apply class_unique).
    pose proof (shifted_nonneg n Hn). repeat case_decide; lia.
  - assert (s ≠ n) by (intros ->; done).
    assert (j ≠ 0) by (intros ->; lia).
    assert (p * j ≤ - p ∨ p ≤ p * j) by nia.
    repeat case_decide; lia.
Qed.

End complete_residues.

(** ** Exponents of the simple-knot derivative *)

Section exponents.
Implicit Types (ab : gmap string Z) (l : list ascii) (n start : Z).

Lemma occurrences_app n (l1 l2 : list Z) :
  occurrences n (l1 ++ l2) = occurrences n l1 + occurrences n l2.
Proof. unfold occurrences. rewrite filter_app, length_app. lia. Qed.

Lemma occurrences_shift n k (l : list Z) :
  occurrences n ((λ e, e + k) <$> l) = occurrences (n - k) l.
Proof.
  unfold occurrences. f_equal. induction l as [|e l IH]; [done|].
  rewrite fmap_cons. destruct (decide (e + k = n)).
  - rewrite !filter_cons_True by lia. simpl. by rewrite IH.
  - rewrite !filter_cons_False by lia. done.
Qed.

Lemma occurrences_NoDup n (l : list Z) :
  NoDup l → occurrences n l = if decide (n ∈ l) then 1 else 0.
Proof.
  unfold occurrences. induction 1 as [|e l Hnin Hnd IH].
  - rewrite decide_False; [done|]. apply not_elem_of_nil.
  - destruct (decide (e = n)) as [->|Hne].
    + rewrite filter_cons_True by done. simpl length.
      rewrite decide_True by (by left).
      rewrite decide_False in IH by done. lia.
    + rewrite filter_cons_False by done. rewrite IH.
      destruct (decide (n ∈ l)).
      * rewrite decide_True; [done|by right].
      * rewrite decide_False; [done|]. intros [->|?]%elem_of_cons; done.
Qed.

Lemma a_exponents_cons ab start c l :
  a_exponents ab start (c :: l)
  = (if decide (c = "a"%char) then [start] else [])
    ++ a_exponents ab (start + image ab c) l.
Proof. done. Qed.

Lemma a_exponents_shift ab start l :
  a_exponents ab start l = (λ e, e + start) <$> a_exponents ab 0 l.
Proof.
  revert start. induction l as [|c l IH]; intros start; [done|].
  simpl. rewrite fmap_app, (IH (start + image ab c)), (IH (0 + image ab c)).
  rewrite <-list_fmap_compose. f_equal.
  - by case_decide.
  - apply list_fmap_ext. intros _ e _. simpl. lia.
Qed.

Lemma simple_base_coef c n :
  ∃ d, simple_knot.base c = Ok (Some d)
       ∧ coef d n = occurrences n (if decide (c = "a"%char) then [0] else []).
Proof.
  destruct (decide (c = "a"%char)) as [->|Ha].
  - eexists. split; [apply simple_base_a|]. rewrite coef_singleton.
    unfold occurrences. case_decide.
    + by rewrite filter_cons_True.
    + by rewrite filter_cons_False.
  - eexists. split; [by apply simple_base_other|]. rewrite coef_singleton.
    by case_decide.
Qed.

(** The derivative of a word has, at each exponent, as many units as
    there are letters "a" reached with that exponent. *)
Lemma simple_free_differential_coef ab w :
  (∀ c, c ∈ chars w → is_Some (ab !! char_str c)) →
  w ≠ EmptyString →
  ∃ d, simple_knot.free_differential_a ab w = Ok (Some d)
       ∧ ∀ n, coef d n = occurrences n (a_exponents ab 0 (chars w)).
Proof.
  induction w as [|c w IH]; intros Hin Hne; [done|].
  destruct w as [|c' w'].
  - destruct (simple_base_coef c 0) as (h & Hh & _). exists h. split; [done|].
    intros n. destruct (simple_base_coef c n) as (h' & Hh' & Hc).
    assert (h' = h) as -> by congruence. simpl. by rewrite app_nil_r.
  - destruct IH as (t & Ht & Htc); [|done|].
    { intros x Hx. apply Hin. simpl. by right. }
    destruct (Hin c) as [e He]; [simpl; by left|].
    destruct (simple_base_coef c 0) as (h & Hh & _).
    eexists. split.
    + change (simple_knot.free_differential_a ab (String c (String c' w')))
        with (fox_step ab c (simple_knot.base c)
                (simple_knot.free_differential_a ab (String c' w'))).
      rewrite Hh, Ht. by apply fox_step_Ok.
    + intros n. destruct (simple_base_coef c n) as (h' & Hh' & Hc).
      assert (h' = h) as -> by congruence.
      rewrite coef_add_laurent, coef_multiply_monomial, Hc, Htc.
      change (chars (String c (String c' w'))) with (c :: chars (String c' w')).
      rewrite a_exponents_cons, occurrences_app.
      rewrite (a_exponents_shift ab (0 + image ab c)), occurrences_shift.
      unfold image. rewrite He. change (default 0 (Some e)) with e.
      rewrite Z.add_0_l. lia.
Qed.

Lemma a_exponents_pieces ab p q k α start (l : list Z) :
  image ab "a" = α → image ab "b" = - p →
  a_exponents ab start (mbind (λ i, chars (simple_piece p q k i)) l)
  = block_exponents p q k α start l.
Proof.
  intros Ha Hb. revert start. induction l as [|i l IH]; intros start; [done|].
  rewrite bind_cons. unfold simple_piece at 1. simpl block_exponents.
  case_decide; simpl; rewrite IH, Ha, ?Hb; f_equal; f_equal; lia.
Qed.

Lemma block_exponents_residues p q k α start (l : list Z) :
  (λ e, e `mod` p) <$> block_exponents p q k α start l
  = (λ j, (start + j * α) `mod` p) <$> seqZ 0 (Z.of_nat (length l)).
Proof.
  revert start. induction l as [|i l IH]; intros start; [done|].
  simpl block_exponents. simpl length.
  rewrite seqZ_cons by lia. rewrite !fmap_cons. f_equal.
  - f_equal. lia.
  - rewrite IH. replace (Z.pred (Z.of_nat (S (length l)))) with (Z.of_nat (length l)) by lia.
    rewrite <-(fmap_add_seqZ 1 0), <-list_fmap_compose.
    apply list_fmap_ext. intros _ j _. simpl.
    case_decide.
    + replace (start + α + - p + j * α) with (start + (1 + j) * α + (-1) * p) by lia.
      apply Z_mod_plus_full.
    + f_equal. lia.
Qed.

End exponents.

Lemma float_exact_small (x : Z) : -2 ≤ x ≤ 2 → Py.float_exact x.
Proof.
  intros H. unfold Py.float_exact. assert (2 ≤ 2 ^ 53) by (by vm_compute). lia.
Qed.

Section quotient.
Variable p : Z.
Variable E : list Z.
Variable d : gmap Z Z.
Hypothesis p_pos : 0 < p.
Hypothesis residues : (λ e, e `mod` p) <$> E ≡ₚ seqZ 0 p.
Hypothesis d_simplified : zero_free d.
Hypothesis d_coef : ∀ n, coef d n = if decide (n ∈ E) then 1 else 0.

Lemma exponent_keys n : is_Some (d !! n) ↔ n ∈ E.
Proof.
  split.
  - intros Hn%zero_free_coef; [|done]. rewrite d_coef in Hn. by case_decide.
  - intros Hn. assert (coef d n ≠ 0) as Hc.
    { rewrite d_coef, decide_True by done. lia. }
    apply coef_nonzero_lookup in Hc. eauto.
Qed.

Lemma exponents_nonempty : d ≠ ∅.
Proof.
  assert (0 ∈ seqZ 0 p) as Hin by (apply elem_of_seqZ; lia).
  rewrite <-residues in Hin. apply list_elem_of_fmap in Hin as (e & _ & He).
  apply exponent_keys in He as [c Hc]. intros ->. by rewrite lookup_empty in Hc.
Qed.

Lemma above_range m n : above p E m n = 0 ∨ above p E m n = 1.
Proof. unfold above. case_decide; auto. Qed.

Lemma above_negative m n : n < 0 → above p E m n = 0.
Proof. intros Hn. unfold above. rewrite decide_False; [done|lia]. Qed.

Lemma above_beyond m n : (∀ e, e ∈ E → e - m ≤ n) → above p E m n = 0.
Proof.
  intros Hle. unfold above. rewrite decide_False; [done|].
  intros [_ (e & He & Hlt & _)%Exists_exists]. apply Hle in He. lia.
Qed.

Lemma coef_residue_quotient m hi n :
  is_max_key d hi → m ≤ hi →
  coef (residue_quotient p E m (hi - m)) n = quotient_coef p E m n.
Proof.
  intros Hmax Hm. unfold residue_quotient. rewrite coef_drop_zeros.
  unfold coef. rewrite lookup_tabulate. case_decide as Hin; [done|].
  simpl. rewrite elem_of_seqZ in Hin. unfold quotient_coef.
  assert (∀ e, e ∈ E → e ≤ hi) as Hle.
  { intros e He. apply Hmax. by apply exponent_keys. }
  destruct (decide (n < 0)).
  - rewrite decide_False, !above_negative by lia. lia.
  - rewrite decide_False by lia. rewrite !above_beyond; [lia|..].
    + intros e He%Hle. lia.
    + intros e He%Hle. lia.
Qed.

(** The derivative, moved to non-negative exponents, is the product of
    [allones p] with a polynomial whose lowest term is the constant 1. *)
Lemma positive_laurent_factors :
  ∃ Q, positive_laurent d = Ok (multiply_laurent (allones p) Q)
       ∧ zero_free Q ∧ is_min_key Q 0 ∧ Q !! 0 = Some 1
       ∧ map_Forall (λ _ c, Py.float_exact (1 * c)) Q.
Proof.
  destruct (min_nonempty d exponents_nonempty) as (m & _ & Hmin).
  destruct (max_nonempty d exponents_nonempty) as (hi & _ & Hmax).
  assert (m ∈ E) as Hm by (apply exponent_keys, Hmin).
  assert (∀ e, e ∈ E → m ≤ e) as Hleast.
  { intros e He. apply Hmin. by apply exponent_keys. }
  assert (m ≤ hi) as Hmhi by (apply Hmax, Hmin).
  set (Q := residue_quotient p E m (hi - m)).
  assert (∀ n, coef Q n = quotient_coef p E m n) as HQ.
  { intros n. by apply coef_residue_quotient. }
  assert (coef Q 0 = 1) as HQ0.
  { rewrite HQ. unfold quotient_coef. rewrite decide_True by done.
    rewrite above_negative by lia.
    rewrite (above_spec p E m residues 0 0); [|by apply shifted_0|done].
    rewrite decide_False by lia. lia. }
  exists Q. split; [|split; [|split; [|split]]].
  - rewrite (positive_laurent_Ok d m) by done. f_equal.
    apply zero_free_ext; [apply multiply_laurent_zero_free..|].
    intros n. rewrite coef_multiply_monomial, coef_multiply_laurent.
    rewrite conv_allones by lia.
    rewrite (zsum_ext _ (λ i, quotient_coef p E m (n - i))) by (intros i; apply HQ).
    rewrite (quotient_coef_sum p E m p_pos residues Hleast).
    rewrite d_coef. unfold shifted.
    replace (n - - m) with (n + m) by lia. repeat case_decide; done || lia.
  - apply drop_zeros_zero_free.
  - split.
    + exists (coef Q 0). apply coef_nonzero_lookup. lia.
    + intros j [c Hj]. unfold Q, residue_quotient in Hj.
      rewrite lookup_drop_zeros, lookup_tabulate in Hj.
      case_decide as Hin; [|done]. apply elem_of_seqZ in Hin. lia.
  - rewrite <-HQ0. apply coef_nonzero_lookup. lia.
  - intros j c Hj. assert (c = quotient_coef p E m j) as ->.
    { rewrite <-HQ. unfold coef. by rewrite Hj. }
    apply float_exact_small. unfold quotient_coef.
    destruct (above_range m (j - 1)) as [-> | ->],
             (above_range m j) as [-> | ->]; case_decide; lia.
Qed.

End quotient.

(** ** [simple_knot] for a class coprime to [p] *)

Section simple_coprime.
Variables p q k : Z.
Hypothesis p_pos : 0 < p.
Hypothesis q_range : 0 < q < p.
Hypothesis coprime_q : Z.gcd p q = 1.
Hypothesis k_range : 0 < k < p.
Hypothesis coprime_k : Z.gcd p k = 1.

Lemma simple_relator_images :
  image (abelianization (simple_relator p q k)) "a" = k
  ∧ image (abelianization (simple_relator p q k)) "b" = - p.
Proof.
  destruct (simple_relator_counts p q k) as [Ha Hb]; try done.
  unfold image. rewrite abelianization_counts, Ha, Hb. by vm_compute.
Qed.

Lemma simple_exponents_residues :
  (λ e, e `mod` p) <$> block_exponents p q k k 0 (seqZ 0 p) ≡ₚ seqZ 0 p.
Proof.
  rewrite block_exponents_residues, length_seqZ, Z2Nat.id by lia.
  rewrite (list_fmap_ext _ (λ i, (i * k) `mod` p)).
  - by apply residues_permutation.
  - intros _ j _. simpl. f_equal; lia.
Qed.

Lemma simple_free_differential_exponents :
  ∃ d, simple_knot.free_differential_a (abelianization (simple_relator p q k))
         (simple_relator p q k) = Ok (Some d)
       ∧ zero_free d ∧ coeff_sum d = p
       ∧ ∀ n, coef d n
              = if decide (n ∈ block_exponents p q k k 0 (seqZ 0 p)) then 1 else 0.
Proof.
  destruct (simple_relator_counts p q k) as [Ha Hb]; try done.
  destruct simple_relator_images as [Hia Hib].
  set (ab := abelianization (simple_relator p q k)) in *.
  assert (∀ c, c ∈ chars (simple_relator p q k) → is_Some (ab !! char_str c)) as Hin.
  { intros c Hc. by apply abelianization_defined, (simple_relator_letters p q k). }
  assert (simple_relator p q k ≠ EmptyString) as Hne.
  { intros E. rewrite E in Ha. unfold count_a in Ha. simpl in Ha. lia. }
  destruct (simple_free_differential_sum ab _ Hin Hne) as (d & Hd & Hsum & Hz).
  destruct (simple_free_differential_coef ab _ Hin Hne) as (d' & Hd' & Hcoef).
  assert (d' = d) as -> by congruence.
  exists d. split; [done|]. split; [|split].
  - apply Hz. pose proof (count_a_length (chars (simple_relator p q k))). lia.
  - by rewrite Hsum, weight_sum_simple.
  - intros n. rewrite Hcoef, simple_relator_pieces.
    rewrite (a_exponents_pieces ab p q k k) by done.
    apply occurrences_NoDup.
    apply (NoDup_fmap_1 (λ e, e `mod` p)).
    rewrite simple_exponents_residues. apply NoDup_seqZ.
Qed.

(** With enough fuel the constructor returns, and the coefficients of
    the polynomial it builds sum to 1. *)
Lemma simple_knot_init_coprime :
  ∃ fuel0 : nat, ∀ fuel, (fuel0 ≤ fuel)%nat →
    ∃ knot, simple_knot.init fuel p q k = Ok knot
            ∧ coeff_sum (simple_knot.alexander_polynomial knot) = 1.
Proof.
  destruct simple_free_differential_exponents as (d & Hd & Hz & Hsum & Hcoef).
  destruct (positive_laurent_factors p _ d p_pos simple_exponents_residues Hz Hcoef)
    as (Q & Hpos & HzQ & Hmin & H0 & Hex).
  exists (size Q). intros fuel Hfuel. unfold simple_knot.init.
  rewrite Hd. simpl. rewrite simplify_laurent_keys_zero_free by done. simpl.
  rewrite Hpos. simpl.
  assert (is_max_key (allones p) (p - 1)) as Hmaxp by (by apply max_Ok, allones_max).
  assert (allones p !! (p - 1) = Some 1) as Hlead.
  { rewrite lookup_allones, decide_True by lia. done. }
  assert (Py.float_exact 1) as Hex1 by (apply float_exact_small; lia).
  assert (∀ n, Py.float_exact (1 * coef Q n)) as HexQ.
  { intros n. unfold coef. destruct (Q !! n) as [c|] eqn:Hc; simpl.
    - by apply (Hex n).
    - apply float_exact_small. lia. }
  rewrite (divide_laurent_product (allones p) (p - 1) 1 Hmaxp Hlead ltac:(lia) Hex1
             fuel Q {[0 := 0]} HzQ Hmin H0 HexQ Hfuel).
  simpl. assert (Q ∪ {[0 := 0]} = Q) as ->.
  { apply map_eq. intros n. rewrite lookup_union.
    destruct (decide (n = 0)) as [->|Hn].
    - by rewrite H0.
    - rewrite lookup_singleton_ne by done. by destruct (Q !! n). }
  destruct (symmetrize_laurent_centred Q HzQ (is_min_key_nonempty _ _ Hmin))
    as (alex & -> & Hs & _).
  simpl. eexists. split; [done|]. simpl. rewrite Hs.
  assert (coeff_sum (multiply_laurent (allones p) Q) = p) as Hprod.
  { unfold positive_laurent in Hpos.
    destruct (Py.min d) as [m| | |]; simpl in Hpos; try done.
    injection Hpos as <-. rewrite coeff_sum_multiply_monomial. lia. }
  rewrite coeff_sum_multiply_laurent, coeff_sum_allones in Hprod by lia. nia.
Qed.

End simple_coprime.

(** * The claims *)

(** ** Fox-derivative base cases *)

(** C1, as stated, fails: on the one-letter word "A" the Hedden-knot method
    does not yield [{0: 0}] and the simple-knot method does not yield
    [{abelianization["a"]: -1}]. *)
Lemma base_cases_variants_swapped :
  hedden_knot.free_differential_a (abelianization "aba") "A" ≠ Ok (Some {[ 0 := 0 ]})
  ∧ (abelianization "aba" !! "a" = Some 1
     ∧ simple_knot.free_differential_a (abelianization "aba") "A"
       ≠ Ok (Some {[ 1 := -1 ]})).
Proof. vm_compute. split; [|split]; congruence. Qed.

(** C1 (amended): on one-letter words the simple-knot method distinguishes
    two cases, "a" giving [{0: 1}] and every other letter [{0: 0}]; the
    Hedden-knot method has a third case, every letter other than "a" and "b"
    (so "A" and "B") giving [{abelianization["a"]: -1}]; both map "a" to
    [{0: 1}] and "b" to [{0: 0}]. *)
Theorem free_differential_base_cases (ab : gmap string Z) (e : Z) :
  ab !! "a" = Some e →
  (∀ c, c ≠ "a"%char →
     simple_knot.free_differential_a ab (char_str c) = Ok (Some {[ 0 := 0 ]}))
  ∧ (∀ c, c ≠ "a"%char → c ≠ "b"%char →
     hedden_knot.free_differential_a ab (char_str c) = Ok (Some {[ e := -1 ]}))
  ∧ simple_knot.free_differential_a ab "a" = Ok (Some {[ 0 := 1 ]})
  ∧ hedden_knot.free_differential_a ab "a" = Ok (Some {[ 0 := 1 ]})
  ∧ simple_knot.free_differential_a ab "b" = Ok (Some {[ 0 := 0 ]})
  ∧ hedden_knot.free_differential_a ab "b" = Ok (Some {[ 0 := 0 ]}).
Proof.
  intros He. repeat split; try reflexivity.
  - intros c Hc. by apply simple_base_other.
  - intros c Ha Hb. by apply hedden_base_other.
Qed.

Lemma free_differential_base_cases_witness :
  hedden_knot.free_differential_a (abelianization "aba") "A" = Ok (Some {[ 1 := -1 ]})
  ∧ simple_knot.free_differential_a (abelianization "aba") "B" = Ok (Some {[ 0 := 0 ]}).
Proof.
  pose proof (free_differential_base_cases (abelianization "aba") 1 eq_refl)
    as (Hs & Hh & _).
  split.
  - apply (Hh "A"%char); discriminate.
  - apply (Hs "B"%char); discriminate.
Defined.

(** ** Addition *)

(** C9: [add_laurent(poly1, poly2)] has, at every exponent present in
    either input, the sum of the two coefficients, unless that sum is 0, in
    which case (as for every other exponent) it has no entry; and
    [add_laurent({1:1, 2:-1}, {2:1, 3:1}) == {1:1, 3:1}]. *)
Theorem add_laurent_spec (poly1 poly2 : gmap Z Z) :
  (∀ n, add_laurent poly1 poly2 !! n =
        if decide (n ∈ dom poly1 ∪ dom poly2 ∧ coef poly1 n + coef poly2 n ≠ 0)
        then Some (coef poly1 n + coef poly2 n) else None)
  ∧ add_laurent {[ 1 := 1; 2 := -1 ]} {[ 2 := 1; 3 := 1 ]} = {[ 1 := 1; 3 := 1 ]}.
Proof.
  split; [|by vm_compute].
  intros n. rewrite lookup_add_laurent, lookup_drop_zeros, lookup_union_with.
  assert (n ∈ dom poly1 ∪ dom poly2 ↔ is_Some (poly1 !! n) ∨ is_Some (poly2 !! n))
    as Hdom by (by rewrite elem_of_union, !elem_of_dom).
  destruct (decide (n ∈ dom poly1 ∪ dom poly2 ∧ coef poly1 n + coef poly2 n ≠ 0))
    as [[Hd Hs]|Hn]; rewrite Hdom in *; unfold coef in *;
    destruct (poly1 !! n) as [c1|], (poly2 !! n) as [c2|]; simpl in *;
    rewrite ?Z.add_0_r, ?Z.add_0_l in *.
  - by rewrite decide_False.
  - by rewrite decide_False.
  - by rewrite decide_False.
  - by destruct Hd as [[? ?]|[? ?]].
  - rewrite decide_True; [done|]. destruct (decide (c1 + c2 = 0)); [done|].
    contradict Hn. eauto.
  - rewrite decide_True; [done|]. destruct (decide (c1 = 0)); [done|].
    contradict Hn. eauto.
  - rewrite decide_True; [done|]. destruct (decide (c2 = 0)); [done|].
    contradict Hn. eauto.
  - done.
Qed.

(** ** Simplification *)

(** C7 (what the code does): whenever the polynomial has an entry with
    coefficient 0, [simplify_laurent] raises [RuntimeError] after removing
    one such entry from its argument; it returns nothing. *)
Theorem simplify_laurent_zero_entry_raises (order : list Z) (poly : gmap Z Z) (z : Z) :
  (∀ k, k ∈ order ↔ is_Some (poly !! k)) →
  poly !! z = Some 0 →
  ∃ k, poly !! k = Some 0
       ∧ simplify_laurent order poly = (Raise RuntimeError, delete k poly).
Proof.
  intros Horder Hz. unfold simplify_laurent.
  rewrite simplify_loop_spec by (intros k; apply Horder).
  destruct (list_find _ order) as [[i k]|] eqn:E.
  - apply list_find_Some in E as (_ & E & _). by exists k.
  - apply list_find_None in E. rewrite Forall_forall in E.
    destruct (E z); [|done]. apply Horder. eauto.
Qed.

Lemma simplify_laurent_zero_entry_raises_witness :
  ∃ k, ({[ 0 := 0 ]} : gmap Z Z) !! k = Some 0
       ∧ simplify_laurent [0] {[ 0 := 0 ]} = (Raise RuntimeError, delete k {[ 0 := 0 ]}).
Proof.
  apply (simplify_laurent_zero_entry_raises [0] {[ 0 := 0 ]} 0); [|reflexivity].
  intros k. rewrite list_elem_of_singleton. split.
  - intros ->. by exists 0.
  - intros [c Hc]. by apply lookup_singleton_Some in Hc as [<- _].
Defined.

(** The same, evaluated on [{0: 0}] and on [{1: 0, 2: 5}]. *)
Example simplify_laurent_zero_polynomial :
  simplify_laurent [0] {[ 0 := 0 ]} = (Raise RuntimeError, ∅)
  ∧ simplify_laurent [1; 2] {[ 1 := 0; 2 := 5 ]} = (Raise RuntimeError, {[ 2 := 5 ]}).
Proof. by vm_compute. Qed.

(** On polynomials without a zero coefficient the call returns its
    argument, so there it is idempotent and leaves no zero entry. *)
Lemma simplify_laurent_simplified (order : list Z) (poly : gmap Z Z) :
  (∀ k, k ∈ order ↔ is_Some (poly !! k)) → zero_free poly →
  simplify_laurent order poly = (Ok poly, poly)
  ∧ simplify_laurent order (simplify_laurent order poly).2 = (Ok poly, poly).
Proof.
  intros Horder Hz.
  rewrite simplify_laurent_zero_free; [|intros k; apply Horder|done].
  split; [done|]. simpl. apply simplify_laurent_zero_free; [|done].
  intros k; apply Horder.
Qed.

(** ** Normalisation to non-negative exponents *)

(** C8, as stated, fails: [{0: 0, 1: 1}] is not empty, and the result
    [{1: 1}] has minimum exponent 1. *)
Lemma positive_laurent_zero_low_entry :
  positive_laurent {[ 0 := 0; 1 := 1 ]} = Ok {[ 1 := 1 ]}
  ∧ Py.min {[ 1 := 1 ]} = Ok 1.
Proof. by vm_compute. Qed.

(** C8 (amended): [positive_laurent] raises [ValueError] on the empty
    polynomial; on every other polynomial, with least key [m], it returns
    [multiply_laurent({-m: 1}, poly)], and the minimum exponent of the result
    is 0 whenever the coefficient at [m] is not 0 (as in every simplified
    polynomial). *)
Theorem positive_laurent_spec :
  positive_laurent ∅ = Raise ValueError
  ∧ ∀ poly, poly ≠ ∅ →
      ∃ m, is_min_key poly m
           ∧ positive_laurent poly = Ok (multiply_laurent {[ - m := 1 ]} poly)
           ∧ (coef poly m ≠ 0 → Py.min (multiply_laurent {[ - m := 1 ]} poly) = Ok 0).
Proof.
  split.
  - unfold positive_laurent. by rewrite min_empty.
  - intros poly Hne. destruct (min_nonempty poly Hne) as (m & _ & Hmin).
    exists m. split; [done|]. split; [by apply positive_laurent_Ok|].
    intros Hc. apply min_Ok. replace 0 with (m + - m) by lia.
    by apply is_min_key_multiply_monomial.
Qed.

Lemma positive_laurent_spec_witness :
  ∃ m, is_min_key {[ -2 := 3; 1 := 1 ]} m
       ∧ positive_laurent {[ -2 := 3; 1 := 1 ]}
         = Ok (multiply_laurent {[ - m := 1 ]} {[ -2 := 3; 1 := 1 ]})
       ∧ (coef {[ -2 := 3; 1 := 1 ]} m ≠ 0
          → Py.min (multiply_laurent {[ - m := 1 ]} {[ -2 := 3; 1 := 1 ]}) = Ok 0).
Proof.
  apply (proj2 positive_laurent_spec {[ -2 := 3; 1 := 1 ]}).
  intros E. apply (f_equal (λ d : gmap Z Z, d !! 1)) in E. vm_compute in E. discriminate.
Defined.

(** ** The simple relator *)

(** C10: for valid parameters the simple relator has exactly [p] letters "a"
    and exactly [k] letters "b" and no other letter, and its abelianization
    is [{"a": k, "b": -p, "A": -k, "B": p}]. *)
Theorem abelianization_simple_relator (p q k : Z) :
  0 < p → 0 < q < p → Z.gcd p q = 1 → 0 < k < p →
  abelianization (simple_relator p q k) = {[ "a" := k; "b" := - p; "A" := - k; "B" := p ]}
  ∧ count_a (chars (simple_relator p q k)) = p
  ∧ Z.of_nat (length (filter (λ c, c = "b"%char) (chars (simple_relator p q k)))) = k
  ∧ count_other (chars (simple_relator p q k)) = k.
Proof.
  intros Hp Hq Hgcd Hk.
  destruct (simple_relator_counts p q k) as [Ha Hb]; try done.
  split; [|split; [done|split; [|done]]].
  - by rewrite abelianization_counts, Ha, Hb.
  - etrans; [|exact Hb]. unfold count_other. do 2 f_equal.
    rewrite simple_relator_pieces. apply simple_pieces_only_b.
Qed.

Lemma abelianization_simple_relator_witness :
  abelianization (simple_relator 5 2 2) = {[ "a" := 2; "b" := - 5; "A" := - 2; "B" := 5 ]}
  ∧ count_a (chars (simple_relator 5 2 2)) = 5
  ∧ Z.of_nat (length (filter (λ c, c = "b"%char) (chars (simple_relator 5 2 2)))) = 2
  ∧ count_other (chars (simple_relator 5 2 2)) = 2.
Proof. apply (abelianization_simple_relator 5 2 2); [lia|lia|reflexivity|lia]. Defined.

(** ** The trivial knot *)

(** C3: [simple_knot(2, 1, 1).alexander_polynomial == {0: 1}]. *)
Theorem simple_knot_2_1_1 (fuel : nat) :
  simple_knot.alexander_polynomial <$> simple_knot.init (S fuel) 2 1 1
  = Ok {[ 0 := 1 ]}.
Proof. by vm_compute. Qed.

(** ** Exact division *)

Lemma zero_free_map_Forall (poly : gmap Z Z) :
  map_Forall (λ _ c, c ≠ 0) poly → zero_free poly.
Proof. intros H n Hn. by apply H in Hn. Qed.

(** C2: the round trip [divide(multiply(p2, q), p2) == simplify(q)] is what
    the docstring of [divide_laurent] promises ("the Laurent polynomial
    quotient poly1/poly2"), and the code breaks it: with divisor [{0: 1}] and
    [q = {0: 2}] the dividend is [{0: 2}], the two largest exponents agree at
    once, and the branch for [k == 0] writes the constant term 1 where the
    other branch computes the quotient of the leading coefficients.  The call
    returns [{0: 1}]; [simplify_laurent(q)] is [{0: 2}]. *)
Lemma divide_forces_constant_term :
  multiply_laurent {[ 0 := 1 ]} {[ 0 := 2 ]} = {[ 0 := 2 ]}
  ∧ (divide_laurent_default 8 (multiply_laurent {[ 0 := 1 ]} {[ 0 := 2 ]}) {[ 0 := 1 ]} ∅).1
    = Ok {[ 0 := 1 ]}
  ∧ (simplify_laurent [0] {[ 0 := 2 ]}).1 = Ok {[ 0 := 2 ]}
  ∧ (divide_laurent_default 8 (multiply_laurent {[ 0 := 1 ]} {[ 0 := 2 ]}) {[ 0 := 1 ]} ∅).1
    ≠ (simplify_laurent [0] {[ 0 := 2 ]}).1.
Proof. by vm_compute. Qed.

(** ** In-place operations *)

(** C6, as stated, fails: [simplify_laurent] changes its argument
    [{0: 0}]; [divide_laurent] changes the accumulator [{0: 0}] it is given;
    and the two-argument call [divide_laurent({0: 1}, {0: 1})] returns
    [{0: 1, 1: 1}] after a call that left these entries in the default
    accumulator, but [{0: 1}] before any other call. *)
Lemma in_place_operations_are_not_pure :
  (simplify_laurent [0] {[ 0 := 0 ]}).2 ≠ {[ 0 := 0 ]}
  ∧ (divide_laurent 4 {[ 0 := 1; 1 := 1 ]} {[ 0 := 1; 1 := 1 ]} {[ 0 := 0 ]}).2
    ≠ {[ 0 := 0 ]}
  ∧ (divide_laurent_default 4 {[ 0 := 1 ]} {[ 0 := 1 ]}
       (divide_laurent_default 4 {[ 0 := 1; 1 := 2; 2 := 1 ]} {[ 0 := 1; 1 := 1 ]} ∅).2).1
    ≠ (divide_laurent_default 4 {[ 0 := 1 ]} {[ 0 := 1 ]} ∅).1.
Proof. vm_compute. repeat split; congruence. Qed.

(** C6 (amended): [simplify_laurent] and [divide_laurent] work in place.
    [simplify_laurent] returns its argument object, unchanged when the
    polynomial has no zero coefficient.  [divide_laurent] writes the quotient
    into the accumulator object and returns that object; a second call on
    the same polynomials with the same accumulator object returns the same
    quotient. *)
Theorem in_place_operations :
  (∀ order poly,
     (∀ k, k ∈ order ↔ is_Some (poly !! k)) → zero_free poly →
     simplify_laurent order poly = (Ok poly, poly))
  ∧ (∀ fuel poly1 poly2 accumulator Q after,
       divide_laurent fuel poly1 poly2 accumulator = (Ok Q, after) →
       after = Q ∧ divide_laurent fuel poly1 poly2 after = (Ok Q, Q))
  ∧ (∀ fuel poly1 poly2 shared Q after,
       divide_laurent_default fuel poly1 poly2 shared = (Ok Q, after) →
       divide_laurent_default fuel poly1 poly2 after = (Ok Q, after)).
Proof.
  assert (∀ fuel poly1 poly2 accumulator Q after,
            divide_laurent fuel poly1 poly2 accumulator = (Ok Q, after) →
            after = Q ∧ divide_laurent fuel poly1 poly2 after = (Ok Q, Q)) as Hdiv.
  { intros fuel poly1 poly2 accumulator Q after E.
    assert (after = Q) as ->.
    { pose proof (divide_laurent_returns_accumulator fuel poly1 poly2 accumulator Q) as H.
      rewrite E in H. by apply H. }
    split; [done|]. apply (divide_laurent_again fuel poly1 poly2 accumulator).
    by rewrite E. }
  split; [|split; [done|]].
  - intros order poly Horder Hz. apply simplify_laurent_zero_free; [|done].
    intros k. apply Horder.
  - unfold divide_laurent_default. intros fuel poly1 poly2 shared Q after E.
    destruct (Hdiv _ _ _ _ _ _ E) as [-> ?]. done.
Qed.

Lemma in_place_operations_witness :
  simplify_laurent [1] {[ 1 := 2 ]} = (Ok {[ 1 := 2 ]}, {[ 1 := 2 ]})
  ∧ divide_laurent 4 {[ 0 := 1; 1 := 2; 2 := 1 ]} {[ 0 := 1; 1 := 1 ]} {[ 0 := 1; 1 := 1 ]}
    = (Ok {[ 0 := 1; 1 := 1 ]}, {[ 0 := 1; 1 := 1 ]}).
Proof.
  destruct in_place_operations as (Hs & Hd & _). split.
  - apply Hs.
    + intros k. rewrite list_elem_of_singleton. split.
      * intros ->. by exists 2.
      * intros [c Hc]. by apply lookup_singleton_Some in Hc as [<- _].
    + apply zero_free_map_Forall, (bool_decide_unpack _). vm_compute. exact I.
  - apply (Hd 4%nat {[ 0 := 1; 1 := 2; 2 := 1 ]} {[ 0 := 1; 1 := 1 ]} ∅
              {[ 0 := 1; 1 := 1 ]} {[ 0 := 1; 1 := 1 ]}).
    by vm_compute.
Defined.

(** ** Symmetry of the support *)

(** C5: the support of [alexander_polynomial] is to be symmetric about 0,
    as the docstring of [symmetrize_laurent] says ("symmetric about degree
    0"), and the code breaks it on valid parameters: the polynomial of
    [hedden_knot(2, 1)] is [{-4: 1, -1: 1, 2: 1, 5: -1}], with exponents from
    -4 to 5, and that of [simple_knot(4, 1, 2)] is [{0: 1, 1: 1}], with
    exponents from 0 to 1. *)
Lemma support_not_symmetric :
  (Py.min <$> (hedden_knot.alexander_polynomial <$> hedden_knot.init 2 1) = Ok (Ok (-4))
   ∧ Py.max <$> (hedden_knot.alexander_polynomial <$> hedden_knot.init 2 1) = Ok (Ok 5))
  ∧ (Py.min <$> (simple_knot.alexander_polynomial <$> simple_knot.init 8 4 1 2) = Ok (Ok 0)
     ∧ Py.max <$> (simple_knot.alexander_polynomial <$> simple_knot.init 8 4 1 2) = Ok (Ok 1)).
Proof. by vm_compute. Qed.

(** ** The value at [t = 1] *)

(** C4, as stated, fails: the coefficients of the polynomial of
    [hedden_knot(2, 1)] sum to 2, and so do those of [simple_knot(4, 1, 2)]. *)
Lemma coefficient_sum_not_unit :
  coeff_sum <$> (hedden_knot.alexander_polynomial <$> hedden_knot.init 2 1) = Ok 2
  ∧ coeff_sum <$> (simple_knot.alexander_polynomial <$> simple_knot.init 8 4 1 2) = Ok 2.
Proof. by vm_compute. Qed.

(** C4 (amended): for valid parameters the coefficients of the polynomial
    of [hedden_knot(p, q)] sum to [p]; those of [simple_knot(p, q, k)] sum to
    1 whenever [k] is coprime to [p], the constructor returning as soon as it
    is given enough fuel. *)
Theorem alexander_coefficient_sum (p q : Z) :
  0 < p → 0 < q < p → Z.gcd p q = 1 →
  (∃ knot, hedden_knot.init p q = Ok knot
           ∧ coeff_sum (hedden_knot.alexander_polynomial knot) = p)
  ∧ (∀ k, 0 < k < p → Z.gcd p k = 1 →
       ∃ fuel0 : nat, ∀ fuel, (fuel0 ≤ fuel)%nat →
         ∃ knot, simple_knot.init fuel p q k = Ok knot
                 ∧ coeff_sum (simple_knot.alexander_polynomial knot) = 1).
Proof.
  intros Hp Hq Hgq. split.
  - destruct (hedden_knot_init_spec p q) as (knot & E & Hsum & _); [lia|]. eauto.
  - intros k Hk Hgk. by apply simple_knot_init_coprime.
Qed.

Lemma alexander_coefficient_sum_witness :
  (∃ knot, hedden_knot.init 3 1 = Ok knot
           ∧ coeff_sum (hedden_knot.alexander_polynomial knot) = 3)
  ∧ (∃ fuel0 : nat, ∀ fuel, (fuel0 ≤ fuel)%nat →
       ∃ knot, simple_knot.init fuel 3 1 2 = Ok knot
               ∧ coeff_sum (simple_knot.alexander_polynomial knot) = 1).
Proof.
  destruct (alexander_coefficient_sum 3 1) as [Hh Hs]; [lia|lia|reflexivity|].
  split; [exact Hh|]. apply (Hs 2); [lia|reflexivity].
Defined.

(** * Further properties *)

(** ** Ring laws of the arithmetic *)

Section ring_laws.
Implicit Types (p q r poly acc : gmap Z Z) (f g : Z → Z) (n i k c : Z).

Lemma fold_add_item_empty poly : map_fold Py.add_item ∅ poly = poly.
Proof.
  apply map_eq. intros n. rewrite lookup_fold_add_item, coef_empty, lookup_empty.
  destruct (poly !! n); [|done]. by rewrite Z.add_0_l.
Qed.

Lemma add_laurent_empty_r poly : add_laurent poly ∅ = Py.drop_zeros poly.
Proof. unfold add_laurent. by rewrite map_fold_empty, fold_add_item_empty. Qed.

Lemma add_laurent_comm p q : add_laurent p q = add_laurent q p.
Proof.
  apply zero_free_ext; [apply add_laurent_zero_free..|].
  intros n. rewrite !coef_add_laurent. lia.
Qed.

Lemma add_laurent_assoc p q r :
  add_laurent p (add_laurent q r) = add_laurent (add_laurent p q) r.
Proof.
  apply zero_free_ext; [apply add_laurent_zero_free..|].
  intros n. rewrite !coef_add_laurent. lia.
Qed.

Lemma conv_insert poly i c f n :
  conv (<[i := c]> poly) f n = c * f (n - i) + conv poly f n - coef poly i * f (n - i).
Proof.
  unfold coef. destruct (poly !! i) as [x|] eqn:E; simpl.
  - rewrite <-(insert_delete_id poly i x) at 2 by done.
    rewrite <-insert_delete_eq, !conv_insert_fresh by apply lookup_delete_eq. lia.
  - rewrite conv_insert_fresh by done. lia.
Qed.

(** The sum defining a coefficient of a product can be taken over either
    factor. *)
Lemma conv_comm p q n : conv p (coef q) n = conv q (coef p) n.
Proof.
  induction p as [|i a p Hi IH] using map_ind.
  - rewrite conv_empty. symmetry. apply conv_zero. intros j _. apply coef_empty.
  - rewrite conv_insert_fresh, IH by done.
    rewrite (conv_ext q (coef (<[i := a]> p))
               (λ m, coef p m + (if decide (m = i) then a else 0))).
    + rewrite conv_plus, conv_delta. lia.
    + intros j _. rewrite coef_insert. unfold coef at 2.
      destruct (decide (i = n - j)) as [->|Hne].
      * rewrite Hi, decide_True by done. simpl. lia.
      * rewrite decide_False by congruence. fold (coef p (n - j)). lia.
Qed.

Lemma multiply_laurent_comm p q : multiply_laurent p q = multiply_laurent q p.
Proof.
  apply zero_free_ext; [apply multiply_laurent_zero_free..|].
  intros n. rewrite !coef_multiply_laurent. apply conv_comm.
Qed.

Lemma conv_drop_zeros poly f n : conv (Py.drop_zeros poly) f n = conv poly f n.
Proof.
  unfold Py.drop_zeros. induction poly as [|k c poly Hk IH] using map_ind.
  - by rewrite map_filter_empty.
  - destruct (decide (c = 0)) as [->|Hc].
    + rewrite map_filter_insert_False by (simpl; lia).
      rewrite delete_id by done. rewrite conv_insert_fresh by done. lia.
    + rewrite map_filter_insert_True by done.
      rewrite !conv_insert_fresh; [lia|done|].
      apply map_lookup_filter_None. by left.
Qed.

Lemma conv_fold_shift i a acc poly f n :
  conv (map_fold (λ power2 c2 acc', Py.add_item (i + power2) (a * c2) acc') acc poly) f n
  = conv acc f n + a * conv poly f (n - i).
Proof.
  apply (map_fold_weak_ind (λ r m, conv r f n = conv acc f n + a * conv m f (n - i))).
  - rewrite conv_empty. lia.
  - intros j x m r Hj IH. unfold Py.add_item. fold (coef r (i + j)).
    rewrite conv_insert, conv_insert_fresh, IH by done.
    replace (n - i - j) with (n - (i + j)) by lia. lia.
Qed.

(** Summing over the entries of a product is summing over both factors. *)
Lemma conv_multiply_laurent p q f n :
  conv (multiply_laurent p q) f n = conv p (λ m, conv q f m) n.
Proof.
  unfold multiply_laurent. rewrite conv_drop_zeros.
  apply (map_fold_weak_ind (λ r m, conv r f n = conv m (λ x, conv q f x) n)).
  - by rewrite !conv_empty.
  - intros i a m r Hi IH. rewrite conv_fold_shift, conv_insert_fresh, IH by done. lia.
Qed.

Lemma multiply_laurent_assoc p q r :
  multiply_laurent p (multiply_laurent q r) = multiply_laurent (multiply_laurent p q) r.
Proof.
  apply zero_free_ext; [apply multiply_laurent_zero_free..|].
  intros n. rewrite !coef_multiply_laurent, conv_multiply_laurent.
  apply conv_ext. intros i _. by rewrite coef_multiply_laurent.
Qed.

Lemma multiply_laurent_add_distr p q r :
  multiply_laurent p (add_laurent q r)
  = add_laurent (multiply_laurent p q) (multiply_laurent p r).
Proof.
  apply zero_free_ext; [apply multiply_laurent_zero_free|apply add_laurent_zero_free|].
  intros n. rewrite coef_add_laurent, !coef_multiply_laurent, <-conv_plus.
  apply conv_ext. intros i _. apply coef_add_laurent.
Qed.

Lemma multiply_laurent_one_l poly : multiply_laurent {[ 0 := 1 ]} poly = Py.drop_zeros poly.
Proof.
  apply zero_free_ext; [apply multiply_laurent_zero_free|apply drop_zeros_zero_free|].
  intros n. rewrite coef_multiply_monomial, coef_drop_zeros, Z.sub_0_r. lia.
Qed.

Lemma multiply_laurent_empty_l poly : multiply_laurent ∅ poly = ∅.
Proof. unfold multiply_laurent. rewrite map_fold_empty. apply map_filter_empty. Qed.

End ring_laws.

(** X1: [add_laurent] is commutative and associative, and adding the empty
    polynomial only removes the zero entries. *)
Theorem add_laurent_laws (p q r : gmap Z Z) :
  add_laurent p q = add_laurent q p
  ∧ add_laurent p (add_laurent q r) = add_laurent (add_laurent p q) r
  ∧ add_laurent p ∅ = filter (λ kv, kv.2 ≠ 0) p
  ∧ add_laurent ∅ p = filter (λ kv, kv.2 ≠ 0) p.
Proof.
  split; [apply add_laurent_comm|]. split; [apply add_laurent_assoc|].
  split; [apply add_laurent_empty_r|].
  rewrite add_laurent_comm. apply add_laurent_empty_r.
Qed.

(** X2: the product has no zero entry, and its coefficient at [n] is the sum,
    over the entries [i: c] of the first factor, of [c] times the
    coefficient of the second factor at [n - i]. *)
Theorem multiply_laurent_convolution (p q : gmap Z Z) :
  (∀ n, multiply_laurent p q !! n ≠ Some 0)
  ∧ ∀ n, default 0 (multiply_laurent p q !! n)
         = map_fold (λ i c acc, c * default 0 (q !! (n - i)) + acc) 0 p.
Proof.
  split; [apply multiply_laurent_zero_free|].
  intros n. apply coef_multiply_laurent.
Qed.

(** X3: [multiply_laurent] is commutative and associative and distributes
    over [add_laurent]. *)
Theorem multiply_laurent_laws (p q r : gmap Z Z) :
  multiply_laurent p q = multiply_laurent q p
  ∧ multiply_laurent p (multiply_laurent q r) = multiply_laurent (multiply_laurent p q) r
  ∧ multiply_laurent p (add_laurent q r)
    = add_laurent (multiply_laurent p q) (multiply_laurent p r).
Proof.
  split; [apply multiply_laurent_comm|]. split; [apply multiply_laurent_assoc|].
  apply multiply_laurent_add_distr.
Qed.

(** X4: multiplying by [{0: 1}], on either side, only removes the zero
    entries, and multiplying by the empty polynomial gives the empty
    polynomial. *)
Theorem multiply_laurent_units (p : gmap Z Z) :
  multiply_laurent {[ 0 := 1 ]} p = filter (λ kv, kv.2 ≠ 0) p
  ∧ multiply_laurent p {[ 0 := 1 ]} = filter (λ kv, kv.2 ≠ 0) p
  ∧ multiply_laurent ∅ p = ∅
  ∧ multiply_laurent p ∅ = ∅.
Proof.
  split; [apply multiply_laurent_one_l|].
  split; [rewrite multiply_laurent_comm; apply multiply_laurent_one_l|].
  split; [apply multiply_laurent_empty_l|].
  rewrite multiply_laurent_comm. apply multiply_laurent_empty_l.
Qed.

(** X5: the sum of the coefficients (the value at [t = 1]) of a sum is the
    sum of the values, and that of a product is the product of the values. *)
Theorem coeff_sum_homomorphism (p q : gmap Z Z) :
  coeff_sum (add_laurent p q) = coeff_sum p + coeff_sum q
  ∧ coeff_sum (multiply_laurent p q) = coeff_sum p * coeff_sum q.
Proof. split; [apply coeff_sum_add_laurent|apply coeff_sum_multiply_laurent]. Qed.

(** X6: the largest exponent of a product of two polynomials whose leading
    coefficients are not 0 is the sum of their largest exponents, and its
    coefficient is the product of the leading coefficients. *)
Theorem multiply_laurent_degree (p q : gmap Z Z) (hp hq cp cq : Z) :
  Py.max p = Ok hp → p !! hp = Some cp → cp ≠ 0 →
  Py.max q = Ok hq → q !! hq = Some cq → cq ≠ 0 →
  Py.max (multiply_laurent p q) = Ok (hp + hq)
  ∧ multiply_laurent p q !! (hp + hq) = Some (cp * cq).
Proof.
  intros Hp Hcp Hcp0 Hq Hcq Hcq0.
  destruct (multiply_laurent_leading p q hp hq) as [Hmax Hlead].
  - by apply max_Ok.
  - unfold coef. by rewrite Hcp.
  - by apply max_Ok.
  - unfold coef. by rewrite Hcq.
  - split; [by apply max_Ok|]. rewrite Hlead. unfold coef. by rewrite Hcp, Hcq.
Qed.

Lemma multiply_laurent_degree_witness :
  Py.max (multiply_laurent {[ 0 := 1; 2 := 3 ]} {[ -1 := 5; 1 := -2 ]}) = Ok (2 + 1)
  ∧ multiply_laurent {[ 0 := 1; 2 := 3 ]} {[ -1 := 5; 1 := -2 ]} !! (2 + 1)
    = Some (3 * -2).
Proof.
  apply (multiply_laurent_degree {[ 0 := 1; 2 := 3 ]} {[ -1 := 5; 1 := -2 ]} 2 1 3 (-2));
    reflexivity || lia.
Defined.

(** ** [allones] *)

(** X7: [allones p] has exactly the keys [0 .. p-1], each with coefficient 1;
    it is empty for [p ≤ 0], and its coefficients sum to [max 0 p]. *)
Theorem allones_spec (p : Z) :
  (∀ n, allones p !! n = if decide (0 ≤ n < p) then Some 1 else None)
  ∧ (p ≤ 0 → allones p = ∅)
  ∧ coeff_sum (allones p) = Z.max 0 p.
Proof.
  split; [apply lookup_allones|].
  assert (p ≤ 0 → allones p = ∅) as Hempty.
  { intros Hp. apply map_eq. intros n.
    rewrite lookup_allones, lookup_empty, decide_False; [done|lia]. }
  split; [done|]. destruct (decide (0 ≤ p)).
  - rewrite coeff_sum_allones by done. lia.
  - rewrite Hempty, coeff_sum_empty by lia. lia.
Qed.

(** ** The two normalisations *)

Section normalisations.
Implicit Types (poly : gmap Z Z) (a b k lo hi : Z).

Lemma multiply_monomials a b poly :
  multiply_laurent {[ a := 1 ]} (multiply_laurent {[ b := 1 ]} poly)
  = multiply_laurent {[ a + b := 1 ]} poly.
Proof.
  apply zero_free_ext; [apply multiply_laurent_zero_free..|].
  intros n. rewrite !coef_multiply_monomial. replace (n - a - b) with (n - (a + b)) by lia.
  lia.
Qed.

Lemma multiply_monomial_empty k : multiply_laurent {[ k := 1 ]} ∅ = ∅.
Proof. rewrite multiply_laurent_comm. apply multiply_laurent_empty_l. Qed.

Lemma positive_laurent_empty : positive_laurent ∅ = Raise ValueError.
Proof. unfold positive_laurent. by rewrite min_empty. Qed.

Lemma symmetrize_laurent_empty : symmetrize_laurent ∅ = Raise ValueError.
Proof. unfold symmetrize_laurent. by rewrite max_empty. Qed.

Lemma positive_laurent_shift k poly :
  zero_free poly →
  positive_laurent (multiply_laurent {[ k := 1 ]} poly) = positive_laurent poly.
Proof.
  intros Hz. destruct (decide (poly = ∅)) as [->|Hne].
  { by rewrite multiply_monomial_empty. }
  destruct (min_nonempty poly Hne) as (lo & _ & Hlo).
  rewrite (positive_laurent_Ok _ (lo + k)) by (by apply is_min_key_shift).
  rewrite (positive_laurent_Ok poly lo) by done.
  rewrite multiply_monomials. do 3 f_equal. lia.
Qed.

Lemma symmetrize_laurent_shift k poly :
  zero_free poly →
  symmetrize_laurent (multiply_laurent {[ k := 1 ]} poly) = symmetrize_laurent poly.
Proof.
  intros Hz. destruct (decide (poly = ∅)) as [->|Hne].
  { by rewrite multiply_monomial_empty. }
  destruct (min_nonempty poly Hne) as (lo & _ & Hlo).
  destruct (max_nonempty poly Hne) as (hi & _ & Hhi).
  rewrite (symmetrize_laurent_Ok _ (lo + k) (hi + k))
    by (by apply is_min_key_shift || by apply is_max_key_shift).
  rewrite (symmetrize_laurent_Ok poly lo hi) by done.
  rewrite multiply_monomials. do 3 f_equal.
  replace (hi + k + (lo + k)) with (hi + lo + k * 2) by lia.
  rewrite Z.div_add by lia. lia.
Qed.

End normalisations.

(** X8: on a polynomial without zero coefficients, neither normalisation
    sees a multiplication by a monomial [t^k]: [positive_laurent] and
    [symmetrize_laurent] return the same for [t^k * poly] as for [poly]. *)
Theorem normalisations_ignore_shifts (poly : gmap Z Z) (k : Z) :
  zero_free poly →
  positive_laurent (multiply_laurent {[ k := 1 ]} poly) = positive_laurent poly
  ∧ symmetrize_laurent (multiply_laurent {[ k := 1 ]} poly) = symmetrize_laurent poly.
Proof.
  intros Hz. split; [by apply positive_laurent_shift|by apply symmetrize_laurent_shift].
Qed.

Lemma normalisations_ignore_shifts_witness :
  positive_laurent (multiply_laurent {[ 7 := 1 ]} {[ -2 := 3; 1 := 1 ]})
  = positive_laurent {[ -2 := 3; 1 := 1 ]}
  ∧ symmetrize_laurent (multiply_laurent {[ 7 := 1 ]} {[ -2 := 3; 1 := 1 ]})
    = symmetrize_laurent {[ -2 := 3; 1 := 1 ]}.
Proof.
  apply (normalisations_ignore_shifts {[ -2 := 3; 1 := 1 ]} 7).
  apply zero_free_map_Forall, (bool_decide_unpack _). vm_compute. exact I.
Defined.

(** X9: on a polynomial without zero coefficients both normalisations are
    idempotent, and [symmetrize_laurent] after [positive_laurent] is
    [symmetrize_laurent] alone. *)
Theorem normalisations_compose (poly : gmap Z Z) :
  zero_free poly →
  (positive_laurent poly ≫= positive_laurent) = positive_laurent poly
  ∧ (symmetrize_laurent poly ≫= symmetrize_laurent) = symmetrize_laurent poly
  ∧ (positive_laurent poly ≫= symmetrize_laurent) = symmetrize_laurent poly.
Proof.
  intros Hz. destruct (decide (poly = ∅)) as [->|Hne].
  { by rewrite positive_laurent_empty, symmetrize_laurent_empty. }
  destruct (min_nonempty poly Hne) as (lo & _ & Hlo).
  destruct (max_nonempty poly Hne) as (hi & _ & Hhi).
  rewrite (positive_laurent_Ok poly lo), (symmetrize_laurent_Ok poly lo hi) by done.
  change (Ok ?x ≫= ?f) with (f x).
  rewrite positive_laurent_shift, !symmetrize_laurent_shift by done.
  by rewrite (positive_laurent_Ok poly lo), (symmetrize_laurent_Ok poly lo hi).
Qed.

Lemma normalisations_compose_witness :
  (positive_laurent {[ -2 := 3; 1 := 1 ]} ≫= positive_laurent)
  = positive_laurent {[ -2 := 3; 1 := 1 ]}
  ∧ (symmetrize_laurent {[ -2 := 3; 1 := 1 ]} ≫= symmetrize_laurent)
    = symmetrize_laurent {[ -2 := 3; 1 := 1 ]}
  ∧ (positive_laurent {[ -2 := 3; 1 := 1 ]} ≫= symmetrize_laurent)
    = symmetrize_laurent {[ -2 := 3; 1 := 1 ]}.
Proof.
  apply (normalisations_compose {[ -2 := 3; 1 := 1 ]}).
  apply zero_free_map_Forall, (bool_decide_unpack _). vm_compute. exact I.
Defined.

(** X10: [symmetrize_laurent] raises [ValueError] on the empty polynomial; on a
    polynomial without zero coefficients, with least key [lo] and greatest
    key [hi], it moves every entry down by [k = floor((hi + lo) / 2)]: the
    result has the entry of [poly] at [n + k] at every [n], extreme keys
    [lo - k] and [hi - k], and the same coefficient sum. *)
Theorem symmetrize_laurent_spec :
  symmetrize_laurent ∅ = Raise ValueError
  ∧ ∀ poly lo hi,
      zero_free poly → Py.min poly = Ok lo → Py.max poly = Ok hi →
      ∃ r, symmetrize_laurent poly = Ok r
           ∧ (∀ n, r !! n = poly !! (n + (hi + lo) `div` 2))
           ∧ Py.min r = Ok (lo - (hi + lo) `div` 2)
           ∧ Py.max r = Ok (hi - (hi + lo) `div` 2)
           ∧ coeff_sum r = coeff_sum poly.
Proof.
  split; [apply symmetrize_laurent_empty|].
  intros poly lo hi Hz Hlo%min_Ok Hhi%max_Ok.
  eexists. split; [by apply symmetrize_laurent_Ok|]. split; [|split; [|split]].
  - intros n. rewrite lookup_shift by done. f_equal. lia.
  - apply min_Ok. by apply is_min_key_shift.
  - apply max_Ok. by apply is_max_key_shift.
  - rewrite coeff_sum_multiply_monomial. lia.
Qed.

Lemma symmetrize_laurent_spec_witness :
  ∃ r, symmetrize_laurent {[ 0 := 1; 1 := -1; 2 := 1 ]} = Ok r
       ∧ (∀ n, r !! n = ({[ 0 := 1; 1 := -1; 2 := 1 ]} : gmap Z Z) !! (n + (2 + 0) `div` 2))
       ∧ Py.min r = Ok (0 - (2 + 0) `div` 2)
       ∧ Py.max r = Ok (2 - (2 + 0) `div` 2)
       ∧ coeff_sum r = coeff_sum {[ 0 := 1; 1 := -1; 2 := 1 ]}.
Proof.
  apply (proj2 symmetrize_laurent_spec {[ 0 := 1; 1 := -1; 2 := 1 ]} 0 2).
  - apply zero_free_map_Forall, (bool_decide_unpack _). vm_compute. exact I.
  - reflexivity.
  - reflexivity.
Defined.

Section expression.

Lemma string_app_cons (c : ascii) (s t : string) :
  String c s +:+ t = String c (s +:+ t).
Proof. reflexivity. Qed.

Lemma string_app_assoc (s1 s2 s3 : string) : (s1 +:+ s2) +:+ s3 = s1 +:+ (s2 +:+ s3).
Proof. induction s1 as [|c s1 IH]; [done|]. rewrite !string_app_cons. f_equal. exact IH. Qed.

Lemma string_app_nil_r (s : string) : s +:+ "" = s.
Proof. induction s as [|c s IH]; [done|]. rewrite !string_app_cons. f_equal. exact IH. Qed.

Lemma string_length_app (s1 s2 : string) :
  String.length (s1 +:+ s2) = (String.length s1 + String.length s2)%nat.
Proof. induction s1 as [|c s1 IH]; [done|]. rewrite string_app_cons. simpl. f_equal. exact IH. Qed.

Lemma substring_prefix (s t : string) :
  String.substring 0 (String.length s) (s +:+ t) = s.
Proof.
  induction s as [|c s IH].
  - by destruct t.
  - rewrite string_app_cons. simpl. f_equal. exact IH.
Qed.

Lemma drop_last3_separator (s : string) : drop_last3 (s +:+ " + ") = s.
Proof.
  unfold drop_last3. rewrite string_length_app. simpl String.length.
  replace (String.length s + 3 - 3)%nat with (String.length s) by lia.
  apply substring_prefix.
Qed.

(** The loop appends one term and one separator per key. *)
Lemma expression_loop (poly : gmap Z Z) (ks : list Z) (acc : string) :
  (∀ k, k ∈ ks → is_Some (poly !! k)) →
  foldl (λ acc key,
           expression ← acc;
           c ← Py.getitem poly key;
           Ok (expression +:+ (str c +:+ "t^(" +:+ str key +:+ ") + ")))
        (Ok acc) ks
  = Ok (acc +:+ foldr (λ k rest, term (coef poly k) k +:+ " + " +:+ rest) "" ks).
Proof.
  revert acc. induction ks as [|k ks IH]; intros acc Hks; simpl.
  - by rewrite string_app_nil_r.
  - destruct (Hks k) as [c Hc]; [by left|].
    unfold Py.getitem at 2. rewrite Hc. simpl.
    rewrite IH by (intros j Hj; apply Hks; by right).
    unfold term, coef. rewrite Hc. simpl.
    by rewrite !string_app_assoc.
Qed.

Lemma separated_terms (ts : list string) :
  ts ≠ [] →
  foldr (λ t rest, t +:+ " + " +:+ rest) "" ts = String.concat " + " ts +:+ " + ".
Proof.
  induction ts as [|t ts IH]; intros Hne; [done|].
  destruct ts as [|t' ts].
  - simpl. done.
  - change (String.concat " + " (t :: t' :: ts))
      with (t +:+ " + " +:+ String.concat " + " (t' :: ts)).
    simpl foldr in *. rewrite IH by done. by rewrite !string_app_assoc.
Qed.

Lemma sorted_keys_spec (poly : gmap Z Z) :
  Sorted Z.le (sorted_keys poly) ∧ NoDup (sorted_keys poly)
  ∧ ∀ k, k ∈ sorted_keys poly ↔ is_Some (poly !! k).
Proof.
  unfold sorted_keys. split; [|split].
  - apply Sorted_merge_sort. intros x y. lia.
  - rewrite merge_sort_Permutation. unfold Py.keys. apply NoDup_fst_map_to_list.
  - intros k. rewrite merge_sort_Permutation. apply elem_of_keys.
Qed.

End expression.

(** X11: [laurent_expression] always returns.  Its result is the terms
    [str(coefficient) + "t^(" + str(exponent) + ")"], one per key, in
    ascending order of the exponents, joined by [" + "] with no separator at
    the end; for the empty polynomial it is the empty string. *)
Theorem laurent_expression_spec (poly : gmap Z Z) :
  ∃ ks, Sorted Z.le ks ∧ NoDup ks ∧ (∀ k, k ∈ ks ↔ is_Some (poly !! k))
        ∧ laurent_expression poly
          = Ok (String.concat " + " ((λ k, term (default 0 (poly !! k)) k) <$> ks)).
Proof.
  destruct (sorted_keys_spec poly) as (Hsorted & Hnd & Hkeys).
  exists (sorted_keys poly). repeat split; try done; try apply Hkeys.
  unfold laurent_expression.
  rewrite expression_loop by (intros k; apply Hkeys). simpl.
  destruct (sorted_keys poly) as [|k ks]; [done|].
  assert (∀ l : list Z,
            foldr (λ k rest, term (coef poly k) k +:+ " + " +:+ rest) "" l
            = foldr (λ t rest, t +:+ " + " +:+ rest) ""
                ((λ k, term (default 0 (poly !! k)) k) <$> l)) as Hmap.
  { induction l as [|x l IH]; simpl; [done|]. by rewrite IH. }
  rewrite Hmap, separated_terms by done.
  change ("" +:+ ?s) with s.
  by rewrite drop_last3_separator.
Qed.

(** ** Edge behaviour of [divide_laurent] *)

Section divide_edges.
Implicit Types (quotient Q : gmap Z Z) (fuel : nat).

Lemma divide_step_Ok (poly1 poly2 : gmap Z Z) k c :
  divide_step poly1 poly2 = Ok (k, c) →
  ∃ hi1 hi2, is_max_key poly1 hi1 ∧ is_max_key poly2 hi2 ∧ k = hi1 - hi2.
Proof.
  unfold divide_step.
  destruct (Py.max poly1) as [hi1| | |] eqn:H1; simpl; try done.
  destruct (Py.max poly2) as [hi2| | |] eqn:H2; simpl; try done.
  apply max_Ok in H1, H2. intros Hstep. exists hi1, hi2.
  split; [done|]. split; [done|].
  destruct (hi1 - hi2 =? 0) eqn:E.
  - apply Z.eqb_eq in E. injection Hstep as <- _. lia.
  - match type of Hstep with (?X ≫= _) = _ => destruct X as [x| | |] end;
      simpl in Hstep; try done.
    by injection Hstep as <- _.
Qed.

(** The remainder after one round does not reach above the dividend. *)
Lemma remainder_keys_bounded (poly1 poly2 : gmap Z Z) hi1 hi2 c j :
  is_max_key poly1 hi1 → is_max_key poly2 hi2 →
  is_Some (add_laurent poly1 (multiply_laurent {[ hi1 - hi2 := - c ]} poly2) !! j) →
  j ≤ hi1.
Proof.
  intros H1 H2 Hj. apply zero_free_coef in Hj; [|apply add_laurent_zero_free].
  rewrite coef_add_laurent, coef_multiply_monomial in Hj.
  destruct (decide (j ≤ hi1)) as [|Hgt]; [done|]. contradict Hj.
  rewrite (coef_above_max poly1 hi1), (coef_above_max poly2 hi2) by (done || lia). lia.
Qed.

Lemma divide_laurent_low_dividend fuel (poly1 poly2 : gmap Z Z) hi2 quotient Q :
  is_max_key poly2 hi2 →
  (∀ j, is_Some (poly1 !! j) → j < hi2) →
  (divide_laurent fuel poly1 poly2 quotient).1 ≠ Ok Q.
Proof.
  intros H2. revert poly1 quotient.
  induction fuel as [|fuel IH]; intros poly1 quotient Hlow; [done|].
  rewrite divide_laurent_unfold.
  destruct (divide_step poly1 poly2) as [[k c]| | |] eqn:Hstep; simpl; try done.
  apply divide_step_Ok in Hstep as (hi1 & hi2' & H1 & H2' & ->).
  assert (hi2' = hi2) as -> by (by eapply is_max_key_unique).
  assert (hi1 < hi2) as Hlt by (apply Hlow, H1).
  assert ((hi1 - hi2 =? 0) = false) as -> by (apply Z.eqb_neq; lia).
  apply IH. intros j Hj.
  pose proof (remainder_keys_bounded _ _ _ _ _ _ H1 H2 Hj). lia.
Qed.

Lemma divide_laurent_constant_term fuel (poly1 poly2 : gmap Z Z) quotient Q :
  (divide_laurent fuel poly1 poly2 quotient).1 = Ok Q → Q !! 0 = Some 1.
Proof.
  revert poly1 quotient. induction fuel as [|fuel IH]; intros poly1 quotient; [done|].
  rewrite divide_laurent_unfold.
  destruct (divide_step poly1 poly2) as [[k c]| | |] eqn:Hstep; simpl; try done.
  destruct (k =? 0) eqn:Hk; simpl; [|apply IH].
  intros [= <-]. apply Z.eqb_eq in Hk as ->.
  unfold divide_step in Hstep.
  destruct (Py.max poly1) as [hi1| | |]; simpl in Hstep; try done.
  destruct (Py.max poly2) as [hi2| | |]; simpl in Hstep; try done.
  destruct (hi1 - hi2 =? 0) eqn:E.
  - injection Hstep as <-. apply lookup_insert_eq.
  - match type of Hstep with (?X ≫= _) = _ => destruct X as [x| | |] end;
      simpl in Hstep; try done.
    injection Hstep as Hk _. apply Z.eqb_neq in E. lia.
Qed.

End divide_edges.

(** X12: [divide_laurent] raises [ValueError] when the dividend or the divisor
    is empty, and [ZeroDivisionError] when the two largest exponents differ
    and the divisor's entry at its largest exponent is 0; in both cases the
    accumulator is left as it was. *)
Theorem divide_laurent_failures (fuel : nat) (poly1 poly2 quotient : gmap Z Z) :
  (poly1 = ∅ ∨ poly2 = ∅ →
     divide_laurent (S fuel) poly1 poly2 quotient = (Raise ValueError, quotient))
  ∧ (∀ hi1 hi2,
       Py.max poly1 = Ok hi1 → Py.max poly2 = Ok hi2 → hi1 ≠ hi2 →
       poly2 !! hi2 = Some 0 →
       divide_laurent (S fuel) poly1 poly2 quotient = (Raise ZeroDivisionError, quotient)).
Proof.
  split.
  - intros Hempty. rewrite divide_laurent_unfold. unfold divide_step.
    destruct (decide (poly1 = ∅)) as [->|Hne].
    { by rewrite max_empty. }
    destruct Hempty as [?| ->]; [done|].
    destruct (max_nonempty poly1 Hne) as (hi1 & -> & _). simpl.
    by rewrite max_empty.
  - intros hi1 hi2 H1 H2 Hne Hzero. rewrite divide_laurent_unfold. unfold divide_step.
    rewrite H1, H2. simpl.
    assert ((hi1 - hi2 =? 0) = false) as -> by (apply Z.eqb_neq; lia).
    apply max_Ok in H1 as [[x Hx] _]. unfold Py.getitem. rewrite Hx, Hzero. done.
Qed.

Lemma divide_laurent_failures_witness :
  divide_laurent 1 ∅ {[ 0 := 1 ]} {[ 5 := 7 ]} = (Raise ValueError, {[ 5 := 7 ]})
  ∧ divide_laurent 1 {[ 3 := 1 ]} {[ 0 := 1; 1 := 0 ]} {[ 5 := 7 ]}
    = (Raise ZeroDivisionError, {[ 5 := 7 ]}).
Proof.
  split.
  - apply (proj1 (divide_laurent_failures 0 ∅ {[ 0 := 1 ]} {[ 5 := 7 ]})). by left.
  - apply (proj2 (divide_laurent_failures 0 {[ 3 := 1 ]} {[ 0 := 1; 1 := 0 ]} {[ 5 := 7 ]})
             3 1); reflexivity || lia.
Defined.

(** X13: whenever [divide_laurent] returns, the quotient it returns has
    coefficient 1 at exponent 0, whatever the polynomials and the
    accumulator were. *)
Theorem divide_laurent_returns_constant_one
    (fuel : nat) (poly1 poly2 quotient Q after : gmap Z Z) :
  divide_laurent fuel poly1 poly2 quotient = (Ok Q, after) →
  Q !! 0 = Some 1 ∧ after = Q.
Proof.
  intros E. split.
  - apply (divide_laurent_constant_term fuel poly1 poly2 quotient). by rewrite E.
  - pose proof (divide_laurent_returns_accumulator fuel poly1 poly2 quotient Q) as H.
    rewrite E in H. by apply H.
Qed.

Lemma divide_laurent_returns_constant_one_witness :
  ({[ 0 := 1; 1 := 5 ]} : gmap Z Z) !! 0 = Some 1
  ∧ ({[ 0 := 1; 1 := 5 ]} : gmap Z Z) = {[ 0 := 1; 1 := 5 ]}.
Proof.
  apply (divide_laurent_returns_constant_one 4 {[ 0 := 7; 1 := 5 ]} {[ 0 := 1 ]} ∅).
  by vm_compute.
Defined.

(** X14: when every exponent of the dividend is below the largest exponent of
    the divisor, [divide_laurent] never returns: with any amount of fuel the
    call fails or is still recursing. *)
Theorem divide_laurent_low_dividend_never_returns
    (fuel : nat) (poly1 poly2 quotient : gmap Z Z) (hi2 : Z) :
  Py.max poly2 = Ok hi2 →
  (∀ j, is_Some (poly1 !! j) → j < hi2) →
  ∀ Q, (divide_laurent fuel poly1 poly2 quotient).1 ≠ Ok Q.
Proof.
  intros H2%max_Ok Hlow Q. by apply (divide_laurent_low_dividend fuel poly1 poly2 hi2).
Qed.

Lemma divide_laurent_low_dividend_never_returns_witness :
  ¬ ∃ Q, (divide_laurent 50 {[ 0 := 1 ]} {[ 0 := 1; 1 := 1 ]} ∅).1 = Ok Q.
Proof.
  intros [Q HQ]. revert HQ.
  apply (divide_laurent_low_dividend_never_returns 50 {[ 0 := 1 ]} {[ 0 := 1; 1 := 1 ]} ∅ 1).
  - reflexivity.
  - intros j [c Hj]. apply lookup_singleton_Some in Hj as [<- _]. lia.
Defined.

(** X15: what the two-argument call returns is the quotient a fresh
    accumulator would receive, laid over whatever earlier calls left in the
    shared default accumulator: stale entries at other exponents stay in the
    result. *)
Theorem divide_laurent_default_keeps_stale_entries
    (fuel : nat) (poly1 poly2 shared : gmap Z Z) :
  divide_laurent_default fuel poly1 poly2 shared
  = ((λ W, W ∪ shared) <$> (divide_laurent_default fuel poly1 poly2 ∅).1,
     (divide_laurent_default fuel poly1 poly2 ∅).2 ∪ shared).
Proof. apply divide_laurent_overlay. Qed.

(** ** The Hedden relator *)

Section hedden_relator_letters.
Variables p q : Z.
Hypothesis q_range : 0 < q < p.

Lemma count_letter_app c l1 l2 :
  count_letter c (l1 ++ l2) = count_letter c l1 + count_letter c l2.
Proof. unfold count_letter. rewrite filter_app, length_app. lia. Qed.

Lemma word_image_app ab l1 l2 :
  word_image ab (l1 ++ l2) = word_image ab l1 + word_image ab l2.
Proof. induction l1 as [|c l1 IH]; simpl; [done|]. rewrite IH. lia. Qed.

(** Going from [i] to [i + 1] the multiple of [q] passes a multiple of [p]
    exactly when the residue of [i * q] plus [q] reaches [p]. *)
Lemma wrap_step i :
  ((i + 1) * q) `div` p
  = (i * q) `div` p + (if decide ((i * q) `mod` p + q >= p) then 1 else 0).
Proof.
  pose proof (Z.div_mod (i * q) p ltac:(lia)) as Hdm.
  pose proof (Z.mod_pos_bound (i * q) p ltac:(lia)) as Hr.
  set (d := (i * q) `div` p) in *. set (r := (i * q) `mod` p) in *.
  case_decide.
  - symmetry. apply (Z.div_unique_pos _ _ _ (r + q - p)); lia.
  - symmetry. apply (Z.div_unique_pos _ _ _ (r + q)); lia.
Qed.

Lemma wrap_count (n : nat) :
  Z.of_nat (length (filter (λ i, (i * q) `mod` p + q >= p) (seqZ 0 (Z.of_nat n))))
  = (Z.of_nat n * q) `div` p.
Proof.
  induction n as [|n IH].
  - simpl. by rewrite Z.div_0_l by lia.
  - rewrite seqZ_S, filter_app, length_app, Nat2Z.inj_add, IH, Z.add_0_l.
    replace (Z.of_nat (S n)) with (Z.of_nat n + 1) by lia. rewrite wrap_step.
    f_equal. case_decide.
    + by rewrite filter_cons_True.
    + by rewrite filter_cons_False.
Qed.

Lemma wrap_total :
  Z.of_nat (length (filter (λ i, (i * q) `mod` p + q >= p) (seqZ 0 (p - 1)))) = q - 1.
Proof.
  rewrite <-(Z2Nat.id (p - 1)) at 1 by lia. rewrite wrap_count, Z2Nat.id by lia.
  symmetry. apply (Z.div_unique_pos _ _ _ (p - q)); lia.
Qed.

Lemma count_letter_hedden_pieces c (l : list Z) :
  count_letter c (mbind (λ i, chars (hedden_piece p q i)) l)
  = (if decide (c = "a"%char) then Z.of_nat (length l) else 0)
    + (if decide (c = "b"%char)
       then Z.of_nat (length (filter (λ i, (i * q) `mod` p + q >= p) l)) else 0).
Proof.
  induction l as [|i l IH].
  { simpl. unfold count_letter. simpl. repeat case_decide; lia. }
  rewrite bind_cons, count_letter_app, IH. unfold hedden_piece.
  destruct (decide ((i * q) `mod` p + q >= p)).
  - rewrite filter_cons_True by done. unfold count_letter. simpl chars.
    destruct (decide (c = "a"%char)) as [->|]; [by simpl; lia|].
    destruct (decide (c = "b"%char)) as [->|]; [by simpl; lia|].
    rewrite filter_cons_False, filter_cons_False by congruence. simpl. lia.
  - rewrite filter_cons_False by done. unfold count_letter. simpl chars.
    destruct (decide (c = "a"%char)) as [->|]; [by simpl; lia|].
    rewrite filter_cons_False by congruence.
    destruct (decide (c = "b"%char)); simpl; lia.
Qed.

Lemma count_other_hedden_pieces (l : list Z) :
  count_other (mbind (λ i, chars (hedden_piece p q i)) l)
  = Z.of_nat (length (filter (λ i, (i * q) `mod` p + q >= p) l)).
Proof.
  induction l as [|i l IH]; [done|].
  rewrite bind_cons, count_other_app, IH. unfold hedden_piece.
  case_decide.
  - rewrite filter_cons_True by done. unfold count_other. simpl. lia.
  - rewrite filter_cons_False by done. unfold count_other. simpl. lia.
Qed.

Lemma count_a_letter l : count_a l = count_letter "a" l.
Proof. done. Qed.

Lemma hedden_relator_counts :
  count_letter "a" (chars (hedden_relator p q)) = p + 1
  ∧ count_letter "b" (chars (hedden_relator p q)) = q + 1
  ∧ count_letter "A" (chars (hedden_relator p q)) = 1
  ∧ count_other (chars (hedden_relator p q)) = q + 2.
Proof.
  rewrite hedden_relator_pieces, !count_letter_app, count_other_app.
  rewrite !count_letter_hedden_pieces, count_other_hedden_pieces.
  unfold Py.range. rewrite wrap_total, length_seqZ.
  repeat split; vm_compute count_letter; vm_compute count_other;
    repeat case_decide; try done; lia.
Qed.

End hedden_relator_letters.

Lemma length_count (l : list ascii) :
  Z.of_nat (length l) = count_a l + count_other l.
Proof.
  unfold count_a, count_other. induction l as [|c l IH]; [done|].
  destruct (decide (c = "a"%char)).
  - rewrite filter_cons_True, filter_cons_False by (done || tauto). simpl length. lia.
  - rewrite filter_cons_False, filter_cons_True by done. simpl length. lia.
Qed.

(** X16: for [0 < q < p] the Hedden relator has [p + 1] letters "a", [q + 1]
    letters "b" and one letter "A", [p + q + 3] letters in all, and its
    abelianization is [{"a": q + 2, "b": -(p + 1), "A": -(q + 2), "B": p + 1}]. *)
Theorem abelianization_hedden_relator (p q : Z) :
  0 < q < p →
  count_letter "a" (chars (hedden_relator p q)) = p + 1
  ∧ count_letter "b" (chars (hedden_relator p q)) = q + 1
  ∧ count_letter "A" (chars (hedden_relator p q)) = 1
  ∧ Z.of_nat (length (chars (hedden_relator p q))) = p + q + 3
  ∧ abelianization (hedden_relator p q)
    = {[ "a" := q + 2; "b" := - (p + 1); "A" := - (q + 2); "B" := p + 1 ]}.
Proof.
  intros Hq. destruct (hedden_relator_counts p q Hq) as (Ha & Hb & HA & Ho).
  repeat split; try done.
  - rewrite length_count, count_a_letter, Ha, Ho. lia.
  - by rewrite abelianization_counts, count_a_letter, Ha, Ho.
Qed.

Lemma abelianization_hedden_relator_witness :
  count_letter "a" (chars (hedden_relator 5 2)) = 5 + 1
  ∧ count_letter "b" (chars (hedden_relator 5 2)) = 2 + 1
  ∧ count_letter "A" (chars (hedden_relator 5 2)) = 1
  ∧ Z.of_nat (length (chars (hedden_relator 5 2))) = 5 + 2 + 3
  ∧ abelianization (hedden_relator 5 2)
    = {[ "a" := 2 + 2; "b" := - (5 + 1); "A" := - (2 + 2); "B" := 5 + 1 ]}.
Proof. apply (abelianization_hedden_relator 5 2). lia. Defined.

(** ** The image of a relator under its own abelianization *)

Section relator_image_sums.
Implicit Types (ab : gmap string Z) (l : list Z).

Lemma abelianization_images (w : string) :
  image (abelianization w) "a" = count_other (chars w)
  ∧ image (abelianization w) "b" = - count_a (chars w)
  ∧ image (abelianization w) "A" = - count_other (chars w)
  ∧ image (abelianization w) "B" = count_a (chars w).
Proof.
  unfold image. rewrite abelianization_counts.
  generalize (count_other (chars w)) (count_a (chars w)). intros x y.
  by vm_compute.
Qed.

Lemma word_image_simple_pieces ab p q k l :
  word_image ab (mbind (λ i, chars (simple_piece p q k i)) l)
  = Z.of_nat (length l) * image ab "a"
    + Z.of_nat (length (filter (λ i, (i * q) `mod` p < k) l)) * image ab "b".
Proof.
  induction l as [|i l IH]; [done|].
  rewrite bind_cons, word_image_app, IH. unfold simple_piece.
  case_decide.
  - rewrite filter_cons_True by done. simpl. lia.
  - rewrite filter_cons_False by done. simpl. lia.
Qed.

Lemma word_image_hedden_pieces ab p q l :
  word_image ab (mbind (λ i, chars (hedden_piece p q i)) l)
  = Z.of_nat (length l) * image ab "a"
    + Z.of_nat (length (filter (λ i, (i * q) `mod` p + q >= p) l)) * image ab "b".
Proof.
  induction l as [|i l IH]; [done|].
  rewrite bind_cons, word_image_app, IH. unfold hedden_piece.
  case_decide.
  - rewrite filter_cons_True by done. simpl. lia.
  - rewrite filter_cons_False by done. simpl. lia.
Qed.

End relator_image_sums.

(** X17: under its own abelianization the simple relator has image 0, for
    valid parameters; the Hedden relator has image [p - q - 1], which is 0
    only for [q = p - 1]. *)
Theorem relator_images (p q : Z) :
  0 < q < p →
  word_image (abelianization (hedden_relator p q)) (chars (hedden_relator p q))
  = p - q - 1
  ∧ (Z.gcd p q = 1 → ∀ k, 0 < k < p →
       word_image (abelianization (simple_relator p q k)) (chars (simple_relator p q k))
       = 0).
Proof.
  intros Hq. split.
  - destruct (hedden_relator_counts p q Hq) as (Ha & _ & _ & Ho).
    destruct (abelianization_images (hedden_relator p q)) as (Ia & Ib & IA & _).
    rewrite count_a_letter, ?Ha, ?Ho in *.
    rewrite hedden_relator_pieces, word_image_app, word_image_hedden_pieces.
    unfold Py.range. rewrite (wrap_total p q Hq), length_seqZ.
    change (word_image ?ab (chars "abAba"))
      with (image ab "a" + (image ab "b" + (image ab "A"
            + (image ab "b" + (image ab "a" + 0))))).
    rewrite Ia, Ib, IA. lia.
  - intros Hgcd k Hk.
    destruct (simple_relator_counts p q k) as [Ha Ho]; [lia|done|done|].
    destruct (abelianization_images (simple_relator p q k)) as (Ia & Ib & _).
    rewrite Ha, Ho in *.
    rewrite simple_relator_pieces, word_image_simple_pieces.
    unfold Py.range. rewrite residues_below, length_seqZ by (done || lia).
    rewrite Ia, Ib. lia.
Qed.

Lemma relator_images_witness :
  word_image (abelianization (hedden_relator 5 2)) (chars (hedden_relator 5 2))
  = 5 - 2 - 1
  ∧ (Z.gcd 5 2 = 1 → ∀ k, 0 < k < 5 →
       word_image (abelianization (simple_relator 5 2 k)) (chars (simple_relator 5 2 k))
       = 0).
Proof. apply (relator_images 5 2). lia. Defined.

(** ** The Fox derivative of an arbitrary word *)

Section fox_words.
Implicit Types (ab : gmap string Z) (w : string) (c : ascii).

Lemma weight_sum_hedden (l : list ascii) :
  weight_sum hedden_weight l
  = count_letter "a" l - (count_other l - count_letter "b" l).
Proof.
  induction l as [|c l IH]; [done|]. simpl weight_sum. rewrite IH.
  unfold hedden_weight, count_letter, count_other.
  destruct (decide (c = "a"%char)) as [->|Ha].
  { rewrite filter_cons_True, !filter_cons_False by (done || tauto). simpl length. lia. }
  destruct (decide (c = "b"%char)) as [->|Hb].
  { rewrite filter_cons_False, !filter_cons_True by done. simpl length. lia. }
  rewrite filter_cons_False, filter_cons_True, filter_cons_False by done.
  simpl length. lia.
Qed.

Lemma simple_base_total c : ∃ d, simple_knot.base c = Ok (Some d).
Proof. destruct (simple_base_sum c) as (d & ? & _). eauto. Qed.

Lemma hedden_base_cases ab c :
  (∃ d, hedden_knot.base ab c = Ok (Some d)) ∨ hedden_knot.base ab c = Raise KeyError.
Proof.
  destruct (ab !! "a") as [e|] eqn:E.
  - left. destruct (hedden_base_sum ab c) as (d & ? & _); eauto.
  - unfold hedden_knot.base.
    destruct (String.eqb _ "a"); [eauto|]. destruct (String.eqb _ "b"); [eauto|].
    right. unfold Py.getitem. by rewrite E.
Qed.

Lemma fox_step_cases ab c head tail :
  ((∃ d, head = Ok (Some d)) ∨ head = Raise KeyError) →
  ((∃ d, tail = Ok (Some d)) ∨ tail = Raise KeyError) →
  (∃ d, fox_step ab c head tail = Ok (Some d)) ∨ fox_step ab c head tail = Raise KeyError.
Proof.
  intros [[h ->]| ->] Htail; [|by right]. unfold fox_step. simpl.
  unfold Py.getitem. destruct (ab !! char_str c) as [e|]; simpl; [|by right].
  destruct Htail as [[t ->]| ->]; [|by right]. left. eauto.
Qed.

Lemma simple_free_differential_cases ab w :
  w ≠ EmptyString →
  (∃ d, simple_knot.free_differential_a ab w = Ok (Some d))
  ∨ simple_knot.free_differential_a ab w = Raise KeyError.
Proof.
  induction w as [|c w IH]; intros Hne; [done|].
  destruct w as [|c' w'].
  - left. apply simple_base_total.
  - change (simple_knot.free_differential_a ab (String c (String c' w')))
      with (fox_step ab c (simple_knot.base c)
              (simple_knot.free_differential_a ab (String c' w'))).
    apply fox_step_cases; [left; apply simple_base_total|by apply IH].
Qed.

Lemma hedden_free_differential_cases ab w :
  w ≠ EmptyString →
  (∃ d, hedden_knot.free_differential_a ab w = Ok (Some d))
  ∨ hedden_knot.free_differential_a ab w = Raise KeyError.
Proof.
  induction w as [|c w IH]; intros Hne; [done|].
  destruct w as [|c' w'].
  - apply hedden_base_cases.
  - change (hedden_knot.free_differential_a ab (String c (String c' w')))
      with (fox_step ab c (hedden_knot.base ab c)
              (hedden_knot.free_differential_a ab (String c' w'))).
    apply fox_step_cases; [apply hedden_base_cases|by apply IH].
Qed.

Lemma simple_free_differential_missing ab c w :
  w ≠ EmptyString → ab !! char_str c = None →
  simple_knot.free_differential_a ab (String c w) = Raise KeyError.
Proof.
  intros Hne Hc. destruct w as [|c' w']; [done|].
  change (simple_knot.free_differential_a ab (String c (String c' w')))
    with (fox_step ab c (simple_knot.base c)
            (simple_knot.free_differential_a ab (String c' w'))).
  destruct (simple_base_total c) as [h ->]. unfold fox_step. simpl.
  unfold Py.getitem. by rewrite Hc.
Qed.

End fox_words.

(** X18: for every map of images and every non-empty word whose letters all
    have an image, the simple-knot derivative is a polynomial whose
    coefficient at [n] is the number of letters "a" of the word that are
    preceded by a prefix of image [n]; its coefficients sum to the number of
    letters "a", and it has no zero entry when the word has two letters or
    more. *)
Theorem simple_free_differential_closed_form (ab : gmap string Z) (w : string) :
  (∀ c, c ∈ chars w → is_Some (ab !! char_str c)) →
  w ≠ EmptyString →
  ∃ d, simple_knot.free_differential_a ab w = Ok (Some d)
       ∧ (∀ n, default 0 (d !! n) = occurrences n (a_exponents ab 0 (chars w)))
       ∧ coeff_sum d = count_letter "a" (chars w)
       ∧ ((2 ≤ length (chars w))%nat → ∀ n, d !! n ≠ Some 0).
Proof.
  intros Hin Hne.
  destruct (simple_free_differential_sum ab w Hin Hne) as (d & Hd & Hsum & Hz).
  destruct (simple_free_differential_coef ab w Hin Hne) as (d' & Hd' & Hcoef).
  assert (d' = d) as -> by congruence.
  exists d. split; [done|]. split; [apply Hcoef|]. split; [|apply Hz].
  by rewrite Hsum, weight_sum_simple.
Qed.

Lemma simple_free_differential_closed_form_witness :
  ∃ d, simple_knot.free_differential_a (abelianization "abaa") "abaa" = Ok (Some d)
       ∧ (∀ n, default 0 (d !! n)
               = occurrences n (a_exponents (abelianization "abaa") 0 (chars "abaa")))
       ∧ coeff_sum d = count_letter "a" (chars "abaa")
       ∧ ((2 ≤ length (chars "abaa"))%nat → ∀ n, d !! n ≠ Some 0).
Proof.
  apply (simple_free_differential_closed_form (abelianization "abaa") "abaa").
  - intros c Hc. apply abelianization_defined. simpl in Hc.
    repeat (apply elem_of_cons in Hc as [->|Hc]);
      try (by apply elem_of_nil in Hc); repeat constructor.
  - discriminate.
Defined.

(** X19: for every map of images containing "a" and every non-empty word whose
    letters all have an image, the coefficients of the Hedden-knot derivative
    sum to the number of letters "a" minus the number of letters other than
    "a" and "b". *)
Theorem hedden_free_differential_value_at_one (ab : gmap string Z) (w : string) :
  is_Some (ab !! "a") →
  (∀ c, c ∈ chars w → is_Some (ab !! char_str c)) →
  w ≠ EmptyString →
  ∃ d, hedden_knot.free_differential_a ab w = Ok (Some d)
       ∧ coeff_sum d
         = count_letter "a" (chars w)
           - (Z.of_nat (length (chars w))
              - count_letter "a" (chars w) - count_letter "b" (chars w)).
Proof.
  intros Ha Hin Hne.
  destruct (hedden_free_differential_sum ab w Ha Hin Hne) as (d & Hd & Hsum & _).
  exists d. split; [done|].
  rewrite Hsum, weight_sum_hedden, length_count. unfold count_a, count_letter. lia.
Qed.

Lemma hedden_free_differential_value_at_one_witness :
  ∃ d, hedden_knot.free_differential_a (abelianization "abAbaa") "abAbaa" = Ok (Some d)
       ∧ coeff_sum d
         = count_letter "a" (chars "abAbaa")
           - (Z.of_nat (length (chars "abAbaa"))
              - count_letter "a" (chars "abAbaa") - count_letter "b" (chars "abAbaa")).
Proof.
  apply (hedden_free_differential_value_at_one (abelianization "abAbaa") "abAbaa").
  - exists 3. reflexivity.
  - intros c Hc. apply abelianization_defined. simpl in Hc.
    repeat (apply elem_of_cons in Hc as [->|Hc]);
      try (by apply elem_of_nil in Hc); repeat constructor.
  - discriminate.
Defined.

(** X20: both [free_differential_a] methods return no value ([None]) exactly on
    the empty word.  On a non-empty word they return a polynomial or raise
    [KeyError], nothing else; the simple-knot method raises [KeyError] as soon
    as the first letter of a word of two letters or more has no image. *)
Theorem free_differential_outcomes (ab : gmap string Z) :
  simple_knot.free_differential_a ab "" = Ok None
  ∧ hedden_knot.free_differential_a ab "" = Ok None
  ∧ (∀ w, w ≠ EmptyString →
       ((∃ d, simple_knot.free_differential_a ab w = Ok (Some d))
        ∨ simple_knot.free_differential_a ab w = Raise KeyError)
       ∧ ((∃ d, hedden_knot.free_differential_a ab w = Ok (Some d))
          ∨ hedden_knot.free_differential_a ab w = Raise KeyError))
  ∧ (∀ c w, w ≠ EmptyString → ab !! char_str c = None →
       simple_knot.free_differential_a ab (String c w) = Raise KeyError).
Proof.
  split; [done|]. split; [done|]. split.
  - intros w Hne. split.
    + by apply simple_free_differential_cases.
    + by apply hedden_free_differential_cases.
  - intros c w. apply simple_free_differential_missing.
Qed.

Lemma free_differential_outcomes_witness :
  simple_knot.free_differential_a (abelianization "ab") "xa" = Raise KeyError.
Proof.
  destruct (free_differential_outcomes (abelianization "ab")) as (_ & _ & _ & H).
  apply (H "x"%char "a"); [discriminate|reflexivity].
Defined.

(** ** The constructors on arbitrary parameters *)

Section constructors.

Lemma hedden_relator_weight_any (p q : Z) :
  weight_sum hedden_weight (chars (hedden_relator p q)) = Z.max 1 p.
Proof.
  rewrite hedden_relator_pieces, weight_sum_app, weight_sum_hedden_pieces.
  unfold Py.range. rewrite length_seqZ. vm_compute (weight_sum _ (chars "abAba")). lia.
Qed.

Lemma simple_relator_empty (p q k : Z) : p ≤ 0 → simple_relator p q k = EmptyString.
Proof. intros Hp. unfold simple_relator, Py.range. by rewrite seqZ_nil. Qed.

(** Blocks none of which has a "b": the exponents go up by [α]; blocks all
    of which have one: they go up by [α - p]. *)
Lemma block_exponents_constant (p q k α start : Z) (l : list Z) :
  (∀ i, i ∈ l → α + (if decide ((i * q) `mod` p < k) then - p else 0) = 0) →
  block_exponents p q k α start l = replicate (length l) start.
Proof.
  revert start. induction l as [|i l IH]; intros start Hl; [done|].
  simpl. f_equal. rewrite <-Z.add_assoc, Hl by (by left).
  rewrite Z.add_0_r. apply IH. intros j Hj. apply Hl. by right.
Qed.

Lemma block_exponents_consecutive (p q k start : Z) (l : list Z) :
  (∀ i, i ∈ l → ¬ (i * q) `mod` p < k) →
  block_exponents p q k 1 start l = seqZ start (Z.of_nat (length l)).
Proof.
  revert start. induction l as [|i l IH]; intros start Hl; [done|].
  simpl block_exponents. simpl length. rewrite seqZ_cons by lia. f_equal.
  rewrite decide_False by (apply Hl; by left).
  rewrite IH by (intros j Hj; apply Hl; by right). f_equal; lia.
Qed.

Lemma occurrences_replicate (n x : Z) (m : nat) :
  occurrences n (replicate m x) = if decide (x = n) then Z.of_nat m else 0.
Proof.
  unfold occurrences. induction m as [|m IH]; simpl replicate.
  - by case_decide.
  - destruct (decide (x = n)).
    + rewrite filter_cons_True by done. simpl length. lia.
    + rewrite filter_cons_False by done. done.
Qed.

End constructors.

(** X21: [hedden_knot(p, q)] returns for all integers [p] and [q]: it stores
    [p], [q], [k = q + 1], the Hedden relator and its abelianization, and a
    polynomial without zero entries whose coefficients sum to [max 1 p]. *)
Theorem hedden_knot_init_total (p q : Z) :
  ∃ knot, hedden_knot.init p q = Ok knot
    ∧ hedden_knot.p knot = p ∧ hedden_knot.q knot = q ∧ hedden_knot.k knot = q + 1
    ∧ hedden_knot.relator knot = hedden_relator p q
    ∧ hedden_knot.abelianization knot = abelianization (hedden_relator p q)
    ∧ (∀ n, hedden_knot.alexander_polynomial knot !! n ≠ Some 0)
    ∧ coeff_sum (hedden_knot.alexander_polynomial knot) = Z.max 1 p.
Proof.
  unfold hedden_knot.init.
  destruct (hedden_free_differential_sum (abelianization (hedden_relator p q))
              (hedden_relator p q)) as (d & Hd & Hsum & Hz).
  { apply abelianization_defined. repeat constructor. }
  { intros c Hc. by apply abelianization_defined, (hedden_relator_letters p q). }
  { intros E. pose proof (hedden_relator_length p q) as Hl. rewrite E in Hl.
    simpl in Hl. lia. }
  rewrite hedden_relator_weight_any in Hsum.
  assert (zero_free d) as Hzd.
  { apply Hz. pose proof (hedden_relator_length p q). lia. }
  assert (d ≠ ∅) as Hne by (apply coeff_sum_nonzero_nonempty; lia).
  rewrite Hd. simpl.
  rewrite simplify_laurent_keys_zero_free by done. simpl.
  destruct (positive_laurent_zero_free d Hzd Hne) as (r & -> & Hzr & Hner & Hsr & _).
  simpl.
  destruct (min_nonempty r Hner) as (lo & _ & Hlo).
  destruct (max_nonempty r Hner) as (hi & _ & Hhi).
  rewrite (symmetrize_laurent_Ok r lo hi) by done. simpl.
  eexists. split; [done|]. simpl. repeat split; try done.
  - apply multiply_laurent_zero_free.
  - rewrite coeff_sum_multiply_monomial. lia.
Qed.

(** X22: [simple_knot(p, q, k)] with [p ≤ 0] has an empty relator, for which
    [free_differential_a] returns no value, and the constructor fails with
    [AttributeError]. *)
Theorem simple_knot_init_nonpositive (fuel : nat) (p q k : Z) :
  p ≤ 0 →
  simple_relator p q k = EmptyString
  ∧ simple_knot.init fuel p q k = Raise AttributeError.
Proof.
  intros Hp. split; [by apply simple_relator_empty|].
  unfold simple_knot.init. by rewrite simple_relator_empty.
Qed.

Lemma simple_knot_init_nonpositive_witness :
  simple_relator 0 1 1 = EmptyString
  ∧ simple_knot.init 5 0 1 1 = Raise AttributeError.
Proof. apply (simple_knot_init_nonpositive 5 0 1 1). lia. Defined.

Section simple_degenerate.
Variables p q k : Z.
Hypothesis p_large : 2 ≤ p.
Hypothesis k_outside : k ≤ 0 ∨ p ≤ k.

Lemma degenerate_step i :
  i ∈ seqZ 0 p →
  count_other (chars (simple_relator p q k))
  + (if decide ((i * q) `mod` p < k) then - p else 0) = 0.
Proof.
  intros Hi. rewrite simple_relator_pieces, count_other_simple_pieces. unfold Py.range.
  pose proof (Z.mod_pos_bound (i * q) p ltac:(lia)) as Hr.
  destruct k_outside as [Hk|Hk].
  - rewrite filter_none, decide_False by (lia || (apply Forall_forall; intros j _;
      pose proof (Z.mod_pos_bound (j * q) p ltac:(lia)); lia)).
    done.
  - rewrite filter_all, decide_True by (lia || (apply Forall_forall; intros j _;
      pose proof (Z.mod_pos_bound (j * q) p ltac:(lia)); lia)).
    rewrite length_seqZ. lia.
Qed.

(** All letters "a" are reached with exponent 0: the derivative is
    [{0: p}]. *)
Lemma degenerate_derivative :
  ∃ d, simple_knot.free_differential_a (abelianization (simple_relator p q k))
         (simple_relator p q k) = Ok (Some d)
       ∧ zero_free d ∧ ∀ j, is_Some (d !! j) → j = 0.
Proof.
  set (ab := abelianization (simple_relator p q k)).
  assert (count_a (chars (simple_relator p q k)) = p) as Ha
    by (apply simple_relator_count_a; lia).
  destruct (abelianization_images (simple_relator p q k)) as (Ia & Ib & _).
  rewrite Ha in Ib. fold ab in Ia, Ib.
  assert (∀ c, c ∈ chars (simple_relator p q k) → is_Some (ab !! char_str c)) as Hin.
  { intros c Hc. by apply abelianization_defined, (simple_relator_letters p q k). }
  assert (simple_relator p q k ≠ EmptyString) as Hne.
  { intros E. rewrite E in Ha. unfold count_a in Ha. simpl in Ha. lia. }
  destruct (simple_free_differential_sum ab _ Hin Hne) as (d & Hd & _ & Hz).
  destruct (simple_free_differential_coef ab _ Hin Hne) as (d' & Hd' & Hcoef).
  assert (d' = d) as -> by congruence.
  assert (zero_free d) as Hzd.
  { apply Hz. pose proof (count_a_length (chars (simple_relator p q k))). lia. }
  exists d. split; [done|]. split; [done|].
  intros j Hj%zero_free_coef; [|done].
  rewrite Hcoef, simple_relator_pieces in Hj.
  rewrite (a_exponents_pieces ab p q k _ 0 _ Ia Ib) in Hj.
  rewrite block_exponents_constant, occurrences_replicate in Hj
    by (intros i Hi; by apply degenerate_step).
  by case_decide.
Qed.

Lemma degenerate_never_returns fuel knot : simple_knot.init fuel p q k ≠ Ok knot.
Proof.
  unfold simple_knot.init.
  destruct degenerate_derivative as (d & -> & Hz & Hkeys). simpl.
  rewrite simplify_laurent_keys_zero_free by done. simpl.
  destruct (positive_laurent d) as [pos| | |] eqn:Hpos; simpl; try done.
  assert (∀ j, is_Some (pos !! j) → j < p - 1) as Hlow.
  { unfold positive_laurent in Hpos.
    destruct (Py.min d) as [lo| | |] eqn:Hlo; simpl in Hpos; try done.
    injection Hpos as <-. apply min_Ok in Hlo as [Hlo _]. apply Hkeys in Hlo as ->.
    intros j. rewrite lookup_shift by done. intros Hj%Hkeys. lia. }
  pose proof (divide_laurent_low_dividend fuel pos (allones p) (p - 1) {[0 := 0]})
    as Hdiv.
  destruct (divide_laurent fuel pos (allones p) {[0 := 0]}).1 as [quo| | |] eqn:E;
    simpl; try done.
  exfalso. apply (Hdiv quo); [|done|done].
  apply max_Ok, allones_max. lia.
Qed.

End simple_degenerate.

(** X23: [simple_knot(p, q, k)] with [p ≥ 2] and [k] outside [1 .. p-1] never
    returns: the derivative is [{0: p}], below the degree of [allones(p)],
    and [divide_laurent] recurses without end or fails. *)
Theorem simple_knot_init_degenerate (fuel : nat) (p q k : Z) :
  2 ≤ p → k ≤ 0 ∨ p ≤ k →
  ∀ knot, simple_knot.init fuel p q k ≠ Ok knot.
Proof. intros Hp Hk knot. by apply degenerate_never_returns. Qed.

Lemma simple_knot_init_degenerate_witness :
  ¬ ∃ knot, simple_knot.init 40 3 1 3 = Ok knot.
Proof.
  intros [knot Hknot]. revert Hknot.
  apply (simple_knot_init_degenerate 40 3 1 3); lia.
Defined.

Section simple_class_one.
Variables p q : Z.
Hypothesis p_large : 2 ≤ p.
Hypothesis coprime_q : Z.gcd p q = 1.

Lemma nonzero_residue i : 0 < i < p → ¬ (i * q) `mod` p < 1.
Proof.
  intros Hi Hlt. pose proof (Z.mod_pos_bound (i * q) p ltac:(lia)) as Hr.
  assert (i = 0); [|lia].
  apply (residue_inj p q ltac:(lia) coprime_q); [lia|lia|].
  rewrite Z.mul_0_l, Z.mod_0_l by lia. lia.
Qed.

Lemma class_one_exponents :
  block_exponents p q 1 1 0 (seqZ 0 p) = 0 :: seqZ (1 - p) (p - 1).
Proof.
  assert ((0 * q) `mod` p < 1) as H0 by (rewrite Z.mul_0_l, Z.mod_0_l by lia; lia).
  rewrite (seqZ_cons 0 p) by lia.
  change (block_exponents p q 1 1 0 (0 :: ?l))
    with (0 :: block_exponents p q 1 1
                 (0 + 1 + (if decide ((0 * q) `mod` p < 1) then - p else 0)) l).
  rewrite decide_True by done. f_equal.
  rewrite block_exponents_consecutive.
  - rewrite length_seqZ. f_equal; lia.
  - intros i Hi%elem_of_seqZ. apply nonzero_residue. lia.
Qed.

Lemma class_one_polynomial (fuel : nat) :
  simple_knot.alexander_polynomial <$> simple_knot.init (S fuel) p q 1 = Ok {[ 0 := 1 ]}.
Proof.
  destruct (simple_free_differential_exponents p q 1) as (d & Hd & Hz & _ & Hcoef);
    [lia|done|lia|apply Z.gcd_1_r|].
  assert (∀ n, coef d n = if decide (1 - p ≤ n ≤ 0) then 1 else 0) as Hc.
  { intros n. rewrite Hcoef, class_one_exponents.
    destruct (decide (1 - p ≤ n ≤ 0)).
    - rewrite decide_True; [done|]. rewrite elem_of_cons, elem_of_seqZ. lia.
    - rewrite decide_False; [done|]. rewrite elem_of_cons, elem_of_seqZ. lia. }
  assert (is_min_key d (1 - p)) as Hmin.
  { split.
    - exists (coef d (1 - p)). apply coef_nonzero_lookup.
      rewrite Hc, decide_True by lia. lia.
    - intros j Hj%zero_free_coef; [|done]. rewrite Hc in Hj. case_decide; [lia|done]. }
  assert (multiply_laurent {[ - (1 - p) := 1 ]} d = allones p) as Hpos.
  { apply zero_free_ext; [apply multiply_laurent_zero_free|apply allones_zero_free|].
    intros n. rewrite coef_multiply_monomial, Hc. unfold coef. rewrite lookup_allones.
    repeat case_decide; simpl; lia. }
  assert (divide_laurent (S fuel) (allones p) (allones p) {[0 := 0]}
          = (Ok {[0 := 1]}, {[0 := 1]})) as Hdiv.
  { rewrite divide_laurent_unfold. unfold divide_step.
    rewrite allones_max by lia. simpl. rewrite Z.sub_diag. simpl.
    by rewrite insert_singleton_eq. }
  unfold simple_knot.init. rewrite Hd.
  change (Ok ?x ≫= ?f) with (f x). cbv beta iota.
  rewrite simplify_laurent_keys_zero_free by done.
  change ((Ok d, d).1 ≫= ?f) with (f d). cbv beta.
  rewrite (positive_laurent_Ok d (1 - p)), Hpos by done.
  change (Ok ?x ≫= ?f) with (f x). cbv beta.
  rewrite Hdiv. by vm_compute.
Qed.

End simple_class_one.

(** X24: for [p ≥ 2] and [q] coprime to [p], [simple_knot(p, q, 1)] has the
    polynomial [{0: 1}]: the derivative is a shift of [allones(p)]. *)
Theorem simple_knot_class_one (fuel : nat) (p q : Z) :
  2 ≤ p → Z.gcd p q = 1 →
  simple_knot.alexander_polynomial <$> simple_knot.init (S fuel) p q 1 = Ok {[ 0 := 1 ]}.
Proof. intros Hp Hq. by apply class_one_polynomial. Qed.

Lemma simple_knot_class_one_witness :
  simple_knot.alexander_polynomial <$> simple_knot.init 1 7 3 1 = Ok {[ 0 := 1 ]}.
Proof. apply (simple_knot_class_one 0 7 3); [lia|reflexivity]. Defined.

(** ** Division of a product *)

(** X25: for every divisor [poly2] with nonzero leading
    coefficient [c2] and every simplified [q] whose lowest term is the
    constant 1 (minimum exponent 0, coefficient 1), dividing
    [multiply_laurent(poly2, q)] by [poly2] with an empty accumulator returns
    [q], which is also what [simplify_laurent(q)] returns.  The products
    [c2 * c] with the coefficients [c] of [q] are taken within the range
    where [int(x / y)] is exact. *)
Theorem divide_multiply_roundtrip (poly2 q : gmap Z Z) (hi2 c2 : Z) (fuel : nat) :
  Py.max poly2 = Ok hi2 → poly2 !! hi2 = Some c2 → c2 ≠ 0 →
  zero_free q → Py.min q = Ok 0 → q !! 0 = Some 1 →
  Py.float_exact c2 → map_Forall (λ _ c, Py.float_exact (c2 * c)) q →
  (size q ≤ fuel)%nat →
  (divide_laurent_default fuel (multiply_laurent poly2 q) poly2 ∅).1 = Ok q
  ∧ (simplify_laurent (Py.keys q) q).1 = Ok q.
Proof.
  intros Hmax Hlead Hc2 Hz Hmin H0 Hex Hexq Hfuel. split.
  - unfold divide_laurent_default.
    rewrite (divide_laurent_product poly2 hi2 c2); try done.
    + simpl. by rewrite (right_id_L ∅ (∪)).
    + by apply max_Ok.
    + by apply min_Ok.
    + intros n. unfold coef. destruct (q !! n) as [c|] eqn:E; simpl.
      * by apply (Hexq n).
      * rewrite Z.mul_0_r. unfold Py.float_exact. simpl. lia.
  - by rewrite simplify_laurent_keys_zero_free.
Qed.

Lemma divide_multiply_roundtrip_witness :
  (divide_laurent_default 3
     (multiply_laurent {[ 0 := 1; 1 := 2 ]} {[ 0 := 1; 1 := -1; 2 := 3 ]})
     {[ 0 := 1; 1 := 2 ]} ∅).1 = Ok {[ 0 := 1; 1 := -1; 2 := 3 ]}
  ∧ (simplify_laurent (Py.keys {[ 0 := 1; 1 := -1; 2 := 3 ]})
       {[ 0 := 1; 1 := -1; 2 := 3 ]}).1 = Ok {[ 0 := 1; 1 := -1; 2 := 3 ]}.
Proof.
  apply (divide_multiply_roundtrip {[ 0 := 1; 1 := 2 ]} {[ 0 := 1; 1 := -1; 2 := 3 ]} 1 2 3).
  - reflexivity.
  - reflexivity.
  - lia.
  - apply zero_free_map_Forall, (bool_decide_unpack _). vm_compute. exact I.
  - reflexivity.
  - reflexivity.
  - unfold Py.float_exact. simpl. lia.
  - apply (bool_decide_unpack _). vm_compute. exact I.
  - vm_compute. lia.
Defined.
